(** * vlang: header search entries and the option-table comparator

    A shallow embedding of two translation units of the vlang front end:

    - [utils/TableGen/OptParserEmitter.cpp]: the option-name comparison
      [StrCmpOptionName], the record comparator [CompareOptionRecords] and
      the sort that [EmitOptParser] runs with it;
    - [include/vlang/Lex/DirectoryLookup.h]: the class [DirectoryLookup], one
      entry of the header search list, with its bit-fields, its two
      constructors and its inline accessors.

    The search-list scan that consumes [DirectoryLookup] entries lives in
    translation units that are not part of the sources at hand; it is
    modelled from the design document in the module [HeaderSearch]. *)

From Stdlib Require Import ZArith Lia Bool Ascii String List.
From stdpp Require Import base option list strings pretty gmap.

Local Open Scope Z_scope.

(* ===================================================================== *)
(** * Part I: definitions                                                 *)
(* ===================================================================== *)

(** ** Results of code that may stop the tool

    [PrintFatalError] never returns: it prints and exits.  A computation that
    may call it yields either its value or the diagnostics printed up to and
    including the fatal one. *)

Inductive outcome (T : Type) : Type :=
| Returns (v : T)
| FatalError (diags : list (option nat * string)).

Arguments Returns {T} v.
Arguments FatalError {T} diags.

#[global] Instance outcome_ret : MRet outcome := fun _ v => Returns v.

#[global] Instance outcome_bind : MBind outcome := fun _ _ k m =>
  match m with
  | Returns v => k v
  | FatalError d => FatalError d
  end.

Module OptParserEmitter.

(** C strings.  A [const char *] is modelled by the characters stored from the
    pointer on; reading at the end of the storage yields the terminator. *)

Definition NUL : ascii := Ascii.zero.

Definition deref (p : string) : ascii :=
  match p with
  | EmptyString => NUL
  | String c _ => c
  end.

Definition advance (p : string) : string :=
  match p with
  | EmptyString => EmptyString
  | String _ p' => p'
  end.

(** The characters a C function sees through the pointer: those before the
    first terminator. *)
Fixpoint c_str (s : string) : string :=
  match s with
  | EmptyString => EmptyString
  | String c s' => if Ascii.eqb c NUL then EmptyString else String c (c_str s')
  end.

Section Char.

(** Whether plain [char] is signed is the platform's choice. *)
Variable char_is_signed : bool.

Definition char_value (c : ascii) : Z :=
  let n := Z.of_N (N_of_ascii c) in
  if char_is_signed && (128 <=? n) then n - 256 else n.

Definition char_lt (a b : ascii) : bool := char_value a <? char_value b.

(** [StrCmpOptionName], lines 20-37.  The loop runs while the two characters
    read are equal; it advances both pointers only past a character that is
    not the terminator, so it recurses on the rest of [A]. *)
Fixpoint StrCmpOptionName (A B : string) : Z :=
  let a := deref A in
  let b := deref B in
  if Ascii.eqb a b then
    match A with
    | EmptyString => 0
    | String _ A' =>
        if Ascii.eqb a NUL then 0 else StrCmpOptionName A' (advance B)
    end
  else if Ascii.eqb a NUL then 1        (* A is a prefix of B. *)
  else if Ascii.eqb b NUL then -1       (* B is a prefix of A. *)
  else if char_lt a b then -1 else 1.   (* Otherwise lexicographic. *)

(** The four ways in which two C strings relate, each with the value the
    comparison is to have there: equal strings, the first a proper prefix of
    the second, the second a proper prefix of the first, and a first position
    at which they differ. *)
Inductive StrCmp_view : string -> string -> Z -> Prop :=
| view_equal (s : string) : StrCmp_view s s 0
| view_A_prefix (s : string) (c : ascii) (r : string) :
    StrCmp_view s (s +:+ String c r) 1
| view_B_prefix (s : string) (c : ascii) (r : string) :
    StrCmp_view (s +:+ String c r) s (-1)
| view_differ (p : string) (a b : ascii) (ra rb : string) :
    a <> b ->
    StrCmp_view (p +:+ String a ra) (p +:+ String b rb)
                (if char_lt a b then -1 else 1).

(** The TableGen records the comparator reads: an option's [Kind] is a
    definition with a [Sentinel] bit and a 64-bit [Precedence]; the option
    has a [Name] and a list of [Prefixes]. *)
Record OptionKind : Type := mkKind {
  Sentinel : bool;
  Precedence : Z
}.

Record OptionRecord : Type := mkOption {
  Loc : nat;
  Kind : OptionKind;
  Name : string;
  Prefixes : list string
}.

(** [int APrec = ...->getValueAsInt("Precedence")]: the 64-bit value is
    converted to a 32-bit [int]. *)
Definition to_int (v : Z) : Z := (v + 2^31) mod 2^32 - 2^31.

(** The loop over both prefix lists, lines 59-68: [Some Cmp] when it returns
    from inside the loop, [None] when one list is exhausted first. *)
Fixpoint ComparePrefixes (APre BPre : list string) : option Z :=
  match APre, BPre with
  | a :: APre', b :: BPre' =>
      let Cmp := StrCmpOptionName a b in
      if Cmp =? 0 then ComparePrefixes APre' BPre' else Some Cmp
  | _, _ => None
  end.

Definition string_list_eqb (l1 l2 : list string) : bool :=
  bool_decide (l1 = l2).

(** [CompareOptionRecords], lines 39-82. *)
Definition CompareOptionRecords (A B : OptionRecord) : outcome Z :=
  let ASent := Sentinel (Kind A) in
  let BSent := Sentinel (Kind B) in
  if negb (Bool.eqb ASent BSent) then
    Returns (if ASent then -1 else 1)
  else
    let Cmp := if negb ASent then StrCmpOptionName (Name A) (Name B) else 0 in
    if negb (Cmp =? 0) then Returns Cmp
    else
      match (if negb ASent then ComparePrefixes (Prefixes A) (Prefixes B)
             else None) with
      | Some Cmp => Returns Cmp
      | None =>
          let APrec := to_int (Precedence (Kind A)) in
          let BPrec := to_int (Precedence (Kind B)) in
          if (APrec =? BPrec) && string_list_eqb (Prefixes A) (Prefixes B) then
            FatalError [ (Some (Loc A), "Option is equivilent to"%string);
                         (Some (Loc B), "Other defined here"%string);
                         (None, "Equivalent Options found."%string) ]
          else Returns (if APrec <? BPrec then -1 else 1)
      end.

(** The sort.  [EmitOptParser] (line 114) hands the vector of options and
    the comparator to [array_pod_sort], LLVM's wrapper that returns at once on
    an empty range and otherwise calls the C library's [qsort].  Neither is
    part of these sources, and the C standard fixes no algorithm for [qsort]:
    it is a parameter of the model.  Two instances are given, the two
    strategies that C libraries commonly run on a short array. *)
Definition qsort_t : Type :=
  forall T : Type, (T -> T -> outcome Z) -> list T -> outcome (list T).

Section Sort.

Context {T : Type}.
Variable Compare : T -> T -> outcome Z.

(** Insertion sort, as the BSD family of C libraries runs it on arrays of
    fewer than seven elements: for each position [pm] from the second on, the
    element walks left while [cmp(pl - 1, pl) > 0], swapping as it goes.  The
    part of the array already processed is kept with its last element
    first. *)
Fixpoint insert_left (x : T) (before : list T) : outcome (list T) :=
  match before with
  | [] => Returns [x]
  | y :: before' =>
      c ← Compare y x;
      if 0 <? c then
        r ← insert_left x before';
        Returns (y :: r)
      else Returns (x :: y :: before')
  end.

Fixpoint insertion_from (before todo : list T) : outcome (list T) :=
  match todo with
  | [] => Returns (rev before)
  | x :: todo' =>
      before' ← insert_left x before;
      insertion_from before' todo'
  end.

Definition qsort_insertion (a : list T) : outcome (list T) :=
  insertion_from [] a.

(** Merge sort, as the GNU C library runs it: the array is cut at [n / 2],
    the two halves are sorted, the first one first, and merged by taking the
    head of the first run while [cmp(b1, b2) <= 0] and the head of the second
    otherwise.  [depth] bounds the depth of the recursion. *)
Fixpoint merge_runs (b1 : list T) : list T -> outcome (list T) :=
  fix merge_into (b2 : list T) : outcome (list T) :=
    match b1, b2 with
    | [], _ => Returns b2
    | _, [] => Returns b1
    | x :: b1', y :: b2' =>
        c ← Compare x y;
        if c <=? 0 then
          r ← merge_runs b1' b2;
          Returns (x :: r)
        else
          r ← merge_into b2';
          Returns (y :: r)
    end.

Fixpoint msort (depth : nat) (b : list T) : outcome (list T) :=
  match depth with
  | O => Returns b
  | S depth' =>
      if (length b <=? 1)%nat then Returns b
      else
        let n1 := (length b / 2)%nat in
        b1 ← msort depth' (take n1 b);
        b2 ← msort depth' (drop n1 b);
        merge_runs b1 b2
  end.

Definition qsort_merge (a : list T) : outcome (list T) :=
  msort (length a) a.

End Sort.

(** [array_pod_sort(Start, End, Compare)]: nothing to do on an empty range,
    [qsort] otherwise. *)
Definition array_pod_sort (qsort : qsort_t) {T : Type}
    (Compare : T -> T -> outcome Z) (a : list T) : outcome (list T) :=
  match a with
  | [] => Returns []
  | _ => qsort T Compare a
  end.

(** The first step of [EmitOptParser] that can fail, line 114: the options are
    sorted with [CompareOptionRecords] before anything is emitted for them. *)
Definition EmitOptParser_sort (qsort : qsort_t) (Opts : list OptionRecord)
  : outcome (list OptionRecord) :=
  array_pod_sort qsort CompareOptionRecords Opts.

End Char.

End OptParserEmitter.

Module Lex.

(** Pointers to objects owned elsewhere ([const DirectoryEntry *],
    [const HeaderMap *], [const FileEntry *]) are addresses; the null pointer
    is address 0. *)
Definition ptr : Type := N.
Definition nullptr : ptr := 0%N.

(** [enum LookupType_t], lines 33-36, as the integer values of its
    enumerators. *)
Definition LT_NormalDir : Z := 0.
Definition LT_HeaderMap : Z := 1.

(** Modelled from the spec: [SrcMgr::CharacteristicKind] is declared in
    [vlang/Basic/SourceManager.h], which is not among the sources.  The design
    document gives its values as User, System, ExternCSystem and one reserved
    value; they are taken in that order as the integers 0 to 3. *)
Definition C_User : Z := 0.
Definition C_System : Z := 1.
Definition C_ExternCSystem : Z := 2.
Definition C_reserved : Z := 3.

(** Initialising an [unsigned] bit-field of width [w] keeps the value modulo
    [2^w]. *)
Definition bitfield (w : Z) (v : Z) : Z := v mod 2 ^ w.

(** The private state, lines 38-57.  The union [u] is one pointer-sized cell
    read through either member. *)
Record DirectoryLookup : Type := mkDirectoryLookup {
  u : ptr;
  DirCharacteristic : Z;   (* unsigned DirCharacteristic : 2 *)
  LookupType : Z;          (* unsigned LookupType : 1 *)
  IsIndexHeaderMap : Z     (* unsigned IsIndexHeaderMap : 1 *)
}.

Definition u_Dir (d : DirectoryLookup) : ptr := u d.
Definition u_Map (d : DirectoryLookup) : ptr := u d.

(** Every object of the class keeps each bit-field within its width. *)
Definition bitfields_ok (d : DirectoryLookup) : Prop :=
  0 <= DirCharacteristic d < 4 /\
  0 <= LookupType d < 2 /\
  0 <= IsIndexHeaderMap d < 2.

(** The constructor for a directory, lines 62-68. *)
Definition DirectoryLookup_of_dir (dir : ptr) (DT : Z) (isFramework : bool)
  : DirectoryLookup :=
  {| u := dir;
     DirCharacteristic := bitfield 2 DT;
     LookupType := bitfield 1 LT_NormalDir;
     IsIndexHeaderMap := bitfield 1 (Z.b2z false) |}.

(** The constructor for a header map, lines 72-77. *)
Definition DirectoryLookup_of_map (map : ptr) (DT : Z) (isIndexHeaderMap : bool)
  : DirectoryLookup :=
  {| u := map;
     DirCharacteristic := bitfield 2 DT;
     LookupType := bitfield 1 LT_HeaderMap;
     IsIndexHeaderMap := bitfield 1 (Z.b2z isIndexHeaderMap) |}.

(** The inline accessors, lines 81-110. *)
Definition getLookupType (d : DirectoryLookup) : Z := LookupType d.

Definition isNormalDir (d : DirectoryLookup) : bool :=
  getLookupType d =? LT_NormalDir.

Definition isHeaderMap (d : DirectoryLookup) : bool :=
  getLookupType d =? LT_HeaderMap.

Definition getDir (d : DirectoryLookup) : ptr :=
  if isNormalDir d then u_Dir d else nullptr.

Definition getHeaderMap (d : DirectoryLookup) : ptr :=
  if isHeaderMap d then u_Map d else nullptr.

Definition getDirCharacteristic (d : DirectoryLookup) : Z :=
  DirCharacteristic d.

Definition isIndexHeaderMap (d : DirectoryLookup) : bool :=
  isHeaderMap d && negb (IsIndexHeaderMap d =? 0).

End Lex.

Module HeaderSearch.

Import Lex.

(** Modelled from the spec: the search list and its [resolve] operation.
    [DirectoryLookup::LookupFile] is declared in the header but defined, with
    the scan over the search list that calls it, in translation units that
    are not among the sources.  The definitions below follow sections 3 and
    4.2 of the design document; the entries of the list are the
    [DirectoryLookup] objects of the header. *)

Inductive IncludeKind : Type := Angled | Quoted.

(** Modelled from the spec: what one entry's [lookupFile] hands back on a
    hit (section 4.1). *)
Record EntryHit : Type := mkEntryHit {
  hit_file : ptr;
  hit_searchPath : string;
  hit_relativePath : string;
  hit_isSystemFramework : bool
}.

(** Modelled from the spec: a successful [LookupResult] (section 3); the
    [NotFound] sentinel is [None]. *)
Record Found : Type := mkFound {
  file : ptr;
  searchPath : string;
  relativePath : string;
  isSystemFramework : bool;
  characteristic : Z
}.

Definition LookupResult : Type := option Found.

(** Modelled from the spec: the ordered entries, each with its quote-only
    mark, and the start index for angled includes (section 3). *)
Record SearchList : Type := mkSearchList {
  entries : list (DirectoryLookup * bool);
  angledStart : nat
}.

(** Modelled from the spec: the directory of the including file, with the
    characteristic of that file (section 4.2, step 1). *)
Record IncludingDir : Type := mkIncludingDir {
  dirPath : string;
  fileCharacteristic : Z
}.

(** Modelled from the spec: the two caches of a session (section 4.2, steps 1
    and 5). *)
Record Session : Type := mkSession {
  sharedCache : gmap (string * nat) LookupResult;
  dirCache : gmap (string * string) LookupResult
}.

Definition newSession : Session := mkSession ∅ ∅.

Section Resolve.

(** The collaborators: the per-entry lookup and the file cache's stat of a
    name relative to a directory. *)
Variable lookupFile : DirectoryLookup -> string -> option EntryHit.
Variable statFile : string -> string -> option ptr.
Variable SL : SearchList.

(** Modelled from the spec: step 2, the scan start index. *)
Definition startIndex (kind : IncludeKind) : nat :=
  match kind with
  | Angled => angledStart SL
  | Quoted => 0%nat
  end.

(** Modelled from the spec: step 3, an entry marked quote-only is skipped for
    an angled include. *)
Definition skipped (kind : IncludeKind) (e : DirectoryLookup * bool) : bool :=
  match kind with
  | Angled => e.2
  | Quoted => false
  end.

(** Modelled from the spec: the result built from an entry's hit; the
    characteristic is the entry's. *)
Definition foundIn (e : DirectoryLookup * bool) (h : EntryHit) : Found :=
  {| file := hit_file h;
     searchPath := hit_searchPath h;
     relativePath := hit_relativePath h;
     isSystemFramework := hit_isSystemFramework h;
     characteristic := getDirCharacteristic e.1 |}.

(** Modelled from the spec: steps 3 and 4, the scan in configured order; the
    first hit ends it, and no hit gives [NotFound]. *)
Fixpoint scanEntries (kind : IncludeKind) (filename : string)
    (es : list (DirectoryLookup * bool)) : LookupResult :=
  match es with
  | [] => None
  | e :: es' =>
      if skipped kind e then scanEntries kind filename es'
      else
        match lookupFile e.1 filename with
        | Some h => Some (foundIn e h)
        | None => scanEntries kind filename es'
        end
  end.

(** The entry is passed over by the scan: it is skipped, or its lookup
    misses. *)
Definition misses (kind : IncludeKind) (filename : string)
    (e : DirectoryLookup * bool) : Prop :=
  skipped kind e = true \/ lookupFile e.1 filename = None.

Definition scan (kind : IncludeKind) (filename : string) : LookupResult :=
  scanEntries kind filename (drop (startIndex kind) (entries SL)).

(** Modelled from the spec: step 1, the direct stat in the including
    directory for a quoted include, with its own cache. *)
Definition includingDirLookup (sess : Session) (filename : string)
    (kind : IncludeKind) (includingDir : option IncludingDir)
  : LookupResult * Session :=
  match kind, includingDir with
  | Quoted, Some d =>
      match dirCache sess !! (filename, dirPath d) with
      | Some r => (r, sess)
      | None =>
          let r := f ← statFile (dirPath d) filename;
                   Some {| file := f;
                           searchPath := dirPath d;
                           relativePath := filename;
                           isSystemFramework := false;
                           characteristic := fileCharacteristic d |} in
          (r, {| sharedCache := sharedCache sess;
                 dirCache := <[(filename, dirPath d) := r]> (dirCache sess) |})
      end
  | _, _ => (None, sess)
  end.

(** Modelled from the spec: [resolve], steps 1 to 5. *)
Definition resolve (sess : Session) (filename : string) (kind : IncludeKind)
    (includingDir : option IncludingDir) : LookupResult * Session :=
  match includingDirLookup sess filename kind includingDir with
  | (Some r, sess1) => (Some r, sess1)
  | (None, sess1) =>
      let start := startIndex kind in
      match sharedCache sess1 !! (filename, start) with
      | Some r => (r, sess1)
      | None =>
          let r := scan kind filename in
          (r, {| sharedCache := <[(filename, start) := r]> (sharedCache sess1);
                 dirCache := dirCache sess1 |})
      end
  end.

(** The sessions a run goes through: the new one, and the one each call of
    [resolve] leaves behind. *)
Inductive reachable : Session -> Prop :=
| reachable_new : reachable newSession
| reachable_resolve sess filename kind includingDir :
    reachable sess ->
    reachable (resolve sess filename kind includingDir).2.

(** Under the key of the query the cache holds nothing, or the outcome of the
    scan that the query itself would run. *)
Definition cacheAgrees (sess : Session) (filename : string)
    (kind : IncludeKind) : Prop :=
  forall r, sharedCache sess !! (filename, startIndex kind) = Some r ->
            r = scan kind filename.

(** The two include kinds never share a cache key under which their scans
    differ: the angled start index is not 0, or no entry is quote-only. *)
Definition kindsApart : Prop :=
  angledStart SL = 0%nat -> forall e, e ∈ entries SL -> e.2 = false.

End Resolve.

End HeaderSearch.

(** ** Concrete option tables

    Two option kinds that are not sentinels, and options that differ in
    prefixes or kind.  [optB] repeats [optA] at another place of the table
    description: the two agree on kind, name and prefixes. *)
Module Tables.

Import OptParserEmitter.

Definition KindFlag : OptionKind := {| Sentinel := false; Precedence := 3 |}.
Definition KindJoined : OptionKind := {| Sentinel := false; Precedence := 4 |}.

Definition optX : OptionRecord :=
  {| Loc := 10; Kind := KindFlag; Name := "help"; Prefixes := ["-"] |}%string.
Definition optA : OptionRecord :=
  {| Loc := 20; Kind := KindFlag; Name := "help";
     Prefixes := ["-"; "--"] |}%string.
Definition optY : OptionRecord :=
  {| Loc := 30; Kind := KindJoined; Name := "help";
     Prefixes := ["-"; "+"] |}%string.
Definition optB : OptionRecord :=
  {| Loc := 40; Kind := KindFlag; Name := "help";
     Prefixes := ["-"; "--"] |}%string.
Definition optZ : OptionRecord :=
  {| Loc := 50; Kind := KindFlag; Name := "version";
     Prefixes := ["-"] |}%string.
Definition optW : OptionRecord :=
  {| Loc := 60; Kind := KindJoined; Name := "help"; Prefixes := ["-"] |}%string.
Definition optV : OptionRecord :=
  {| Loc := 70; Kind := KindJoined; Name := "help";
     Prefixes := ["-"; "--"] |}%string.

End Tables.

(** ** A concrete search list

    The example of the design document: a user directory followed by a system
    directory, both holding [x.h]. *)
Module SearchLists.

Import Lex HeaderSearch.

Definition dirA : DirectoryLookup := DirectoryLookup_of_dir 16%N C_User false.
Definition dirB : DirectoryLookup := DirectoryLookup_of_dir 32%N C_System false.

Definition twoDirs : SearchList :=
  {| entries := [(dirA, false); (dirB, false)]; angledStart := 0 |}.

(** Every directory holds [x.h] and nothing else; the file found in the
    directory at address [a] is the one at address [a + 1]. *)
Definition holds_x_h (d : DirectoryLookup) (filename : string)
  : option EntryHit :=
  if String.eqb filename "x.h" then
    Some {| hit_file := (getDir d + 1)%N;
            hit_searchPath := "";
            hit_relativePath := filename;
            hit_isSystemFramework := false |}
  else None.

Definition no_stat (dir filename : string) : option ptr := None.

Definition dirQ : DirectoryLookup := DirectoryLookup_of_dir 48%N C_User false.
Definition dirC : DirectoryLookup :=
  DirectoryLookup_of_dir 64%N C_ExternCSystem false.

(** Four directories, the second one quote-only; angled includes start at
    the second. *)
Definition skipList : SearchList :=
  {| entries := [(dirA, false); (dirQ, true); (dirB, false); (dirC, false)];
     angledStart := 1 |}.

(** The session after one angled include of [x.h] with [skipList]. *)
Definition skipList_used : Session :=
  (resolve holds_x_h no_stat skipList newSession "x.h" Angled None).2.

(** A quote-only directory first, and angled includes that start at it. *)
Definition quoteOnlyFirst : SearchList :=
  {| entries := [(dirA, true); (dirB, false)]; angledStart := 0 |}.

(** The session after one angled include of [x.h] with [quoteOnlyFirst]. *)
Definition quoteOnlyFirst_used : Session :=
  (resolve holds_x_h no_stat quoteOnlyFirst newSession "x.h" Angled None).2.

End SearchLists.

(** ** Notions used to state properties of the comparator *)
Module OptParserNotions.

Import OptParserEmitter.

(** Every character of the string has a code below 128. *)
Fixpoint ascii7 (s : string) : bool :=
  match s with
  | EmptyString => true
  | String c s' => (N_of_ascii c <? 128)%N && ascii7 s'
  end.

(** What lines 77-79 print for a pair of options: a note at the place of
    each, then the fatal message. *)
Definition equivalent_diags (A B : OptionRecord) : list (option nat * string) :=
  [ (Some (Loc A), "Option is equivilent to"%string);
    (Some (Loc B), "Other defined here"%string);
    (None, "Equivalent Options found."%string) ].

(** A pair of options on which the comparator has nothing left to decide
    with: both sentinels or both not, the same precedence as an [int],
    prefix lists that are not the same, and, unless they are sentinels, names
    that are the same C string and prefix lists in which the loop of lines
    59-68 finds no difference. *)
Definition unordered (char_is_signed : bool) (A B : OptionRecord) : Prop :=
  Sentinel (Kind A) = Sentinel (Kind B) /\
  (Sentinel (Kind A) = true \/
   (c_str (Name A) = c_str (Name B) /\
    ComparePrefixes char_is_signed (Prefixes A) (Prefixes B) = None)) /\
  to_int (Precedence (Kind A)) = to_int (Precedence (Kind B)) /\
  Prefixes A <> Prefixes B.

End OptParserNotions.

(** ** The prefix groups of [EmitOptParser]

    Lines 116-130 of [EmitOptParser] give a name to every distinct list of
    prefixes of the sorted options, and line 215 reads the name back for each
    option. *)
Module PrefixGroups.

Import OptParserEmitter.

(** Arithmetic on [unsigned] wraps at [2^32]. *)
Definition unsigned (v : N) : N := (v mod 2 ^ 32)%N.

(** [std::map::insert]: an entry whose key is present is left as it is; the
    boolean tells whether the pair was inserted.  The keys are vectors of
    strings compared by their contents. *)
Definition map_insert (m : gmap (list string) string)
    (key : list string) (value : string) : gmap (list string) string * bool :=
  match m !! key with
  | Some _ => (m, false)
  | None => (<[key := value]> m, true)
  end.

(** [std::map::operator[]]: the value at the key, after inserting an empty
    string when the key is absent. *)
Definition map_subscript (m : gmap (list string) string) (key : list string)
  : string * gmap (list string) string :=
  match m !! key with
  | Some value => (value, m)
  | None => (EmptyString, <[key := EmptyString]> m)
  end.

(** [(Twine("prefix_") + Twine(NewPrefix)).str()] *)
Definition prefix_name (n : N) : string := "prefix_" +:+ pretty n.

(** The body of the loop, lines 123-129, on the map and [CurPrefix]. *)
Definition prefix_step (st : gmap (list string) string * N) (R : OptionRecord)
  : gmap (list string) string * N :=
  let prfkey := Prefixes R in
  let NewPrefix := unsigned (st.2 + 1) in
  let ins := map_insert st.1 prfkey (prefix_name NewPrefix) in
  (ins.1, if ins.2 then NewPrefix else st.2).

(** Lines 119-130: the map starts with the empty list of prefixes under
    [prefix_0]; the loop runs over the options up to [e = Opts.size()] taken
    as an [unsigned]. *)
Definition EmitOptParser_prefixes (Opts : list OptionRecord)
  : gmap (list string) string * N :=
  let e := unsigned (N.of_nat (length Opts)) in
  fold_left prefix_step (take (N.to_nat e) Opts)
            ({[ [] := "prefix_0"%string ]}, 0%N).

(** The lists of prefixes in the order in which the loop first meets them,
    leaving out those in [seen]. *)
Fixpoint first_seen (seen : list (list string)) (keys : list (list string))
  : list (list string) :=
  match keys with
  | [] => []
  | key :: keys' =>
      if decide (key ∈ seen) then first_seen seen keys'
      else key :: first_seen (seen ++ [key]) keys'
  end.

(** The distinct lists of prefixes of the options, the empty list first and
    the others in the order of their first option. *)
Definition groups (Opts : list OptionRecord) : list (list string) :=
  [] :: first_seen [[]] (map Prefixes Opts).

(** What the loop keeps true: the keys of the map are the lists [assigned],
    met in that order, and the list at position [i] is named [prefix_i]. *)
Record assigned_names (assigned : list (list string))
    (m : gmap (list string) string) (cur : N) : Prop := {
  assigned_nodup : NoDup assigned;
  assigned_cur : N.of_nat (length assigned) = (cur + 1)%N;
  assigned_name : forall (i : nat) key,
      assigned !! i = Some key -> m !! key = Some (prefix_name (N.of_nat i));
  assigned_only : forall key, key ∉ assigned -> m !! key = None;
  assigned_size : size m = length assigned
}.

End PrefixGroups.

(* ===================================================================== *)
(** * Part II: properties                                                 *)
(* ===================================================================== *)

Module OptParserEmitterFacts.

Import OptParserEmitter.

(** ** C strings *)

Lemma append_nil_l (q : string) : EmptyString +:+ q = q.
Proof. reflexivity. Qed.

Lemma append_cons (c : ascii) (p q : string) :
  String c p +:+ q = String c (p +:+ q).
Proof. reflexivity. Qed.

Lemma append_nil_r (p : string) : p +:+ EmptyString = p.
Proof.
  induction p as [|c p IH]; [reflexivity|].
  rewrite append_cons, IH. reflexivity.
Qed.

Lemma c_str_cons (c : ascii) (s : string) :
  c <> NUL -> c_str (String c s) = String c (c_str s).
Proof.
  intros Hc. simpl. destruct (Ascii.eqb_spec c NUL); congruence.
Qed.

Lemma c_str_NUL (s : string) : c_str (String NUL s) = EmptyString.
Proof. reflexivity. Qed.

Lemma c_str_deref_NUL (s : string) : deref s = NUL -> c_str s = EmptyString.
Proof.
  destruct s as [|c s]; simpl; [reflexivity|].
  intros ->. reflexivity.
Qed.

Lemma c_str_deref (s : string) :
  deref s <> NUL -> c_str s = String (deref s) (c_str (advance s)).
Proof.
  destruct s as [|c s]; simpl; [congruence|].
  intros Hc. destruct (Ascii.eqb_spec c NUL); congruence.
Qed.

(** A string that holds no terminator is the C string read from it. *)
Lemma c_str_id (s : string) :
  (forall n, String.get n s <> Some NUL) -> c_str s = s.
Proof.
  induction s as [|c s IH]; intros H; simpl; [reflexivity|].
  destruct (Ascii.eqb_spec c NUL) as [->|Hc].
  - exfalso. apply (H 0%nat). reflexivity.
  - f_equal. apply IH. intros n. apply (H (S n)).
Qed.

Section CharFacts.

Variable char_is_signed : bool.

Local Abbreviation StrCmp := (StrCmpOptionName char_is_signed).

(** One step of the loop, on the characters read. *)
Lemma StrCmpOptionName_step (A B : string) :
  StrCmp A B =
    if Ascii.eqb (deref A) (deref B) then
      if Ascii.eqb (deref A) NUL then 0 else StrCmp (advance A) (advance B)
    else if Ascii.eqb (deref A) NUL then 1
    else if Ascii.eqb (deref B) NUL then -1
    else if char_lt char_is_signed (deref A) (deref B) then -1 else 1.
Proof.
  destruct A as [|a A]; simpl.
  - destruct (Ascii.eqb NUL (deref B)); reflexivity.
  - reflexivity.
Qed.

Local Abbreviation StrCmp_view := (StrCmp_view char_is_signed).

Lemma StrCmp_view_cons (c : ascii) (s t : string) (z : Z) :
  StrCmp_view s t z -> StrCmp_view (String c s) (String c t) z.
Proof.
  intros [s'|s' c' r|s' c' r|p a b ra rb Hab].
  - constructor.
  - apply (view_A_prefix _ (String c s')).
  - apply (view_B_prefix _ (String c s')).
  - apply (view_differ _ (String c p)); assumption.
Qed.

Lemma StrCmpOptionName_view (A B : string) :
  StrCmp_view (c_str A) (c_str B) (StrCmp A B).
Proof.
  revert B. induction A as [|a A IH]; intros B.
  - rewrite StrCmpOptionName_step. simpl deref at 1 2 3. simpl c_str at 1.
    destruct (Ascii.eqb_spec NUL (deref B)) as [E|E].
    + rewrite Ascii.eqb_refl, c_str_deref_NUL by congruence. constructor.
    + rewrite Ascii.eqb_refl, (c_str_deref B) by congruence.
      apply (view_A_prefix _ EmptyString).
  - rewrite StrCmpOptionName_step. simpl deref. simpl advance.
    destruct (Ascii.eqb_spec a NUL) as [->|Ha].
    + rewrite c_str_NUL.
      destruct (Ascii.eqb_spec NUL (deref B)) as [E|E].
      * rewrite c_str_deref_NUL by congruence. constructor.
      * rewrite (c_str_deref B) by congruence. apply (view_A_prefix _ EmptyString).
    + rewrite (c_str_cons a A Ha).
      destruct (Ascii.eqb_spec a (deref B)) as [E|E].
      * rewrite (c_str_deref B) by congruence. rewrite <- E.
        apply StrCmp_view_cons, IH.
      * destruct (Ascii.eqb_spec (deref B) NUL) as [EB|EB].
        -- rewrite (c_str_deref_NUL B EB). apply (view_B_prefix _ EmptyString).
        -- rewrite (c_str_deref B EB).
           apply (view_differ _ EmptyString); assumption.
Qed.

Lemma StrCmp_view_zero (s t : string) : StrCmp_view s t 0 -> s = t.
Proof.
  inversion 1 as [| | |p a b ra rb Hab]; subst; try reflexivity.
  destruct (char_lt char_is_signed a b); discriminate.
Qed.

Lemma deref_c_str (s : string) : deref (c_str s) = deref s.
Proof.
  destruct s as [|c s]; simpl; [reflexivity|].
  destruct (Ascii.eqb_spec c NUL) as [->|]; reflexivity.
Qed.

Lemma advance_c_str (s : string) :
  deref s <> NUL -> advance (c_str s) = c_str (advance s).
Proof. intros H. rewrite (c_str_deref s H). reflexivity. Qed.

Lemma StrCmpOptionName_c_str (A B : string) :
  StrCmp A B = StrCmp (c_str A) (c_str B).
Proof.
  revert B. induction A as [|a A IH]; intros B.
  - rewrite (StrCmpOptionName_step EmptyString), (StrCmpOptionName_step (c_str _)).
    rewrite !deref_c_str. simpl deref. rewrite Ascii.eqb_refl. reflexivity.
  - rewrite (StrCmpOptionName_step (String a A)), (StrCmpOptionName_step (c_str _)).
    rewrite !deref_c_str. simpl deref.
    destruct (Ascii.eqb_spec a (deref B)) as [E|E]; [|reflexivity].
    destruct (Ascii.eqb_spec a NUL) as [Ha|Ha]; [reflexivity|].
    rewrite (c_str_cons a A Ha), advance_c_str by congruence.
    simpl advance. apply IH.
Qed.

Lemma c_str_head (c : ascii) (r : string) :
  c_str (String c r) = String c r -> c <> NUL.
Proof.
  simpl. destruct (Ascii.eqb_spec c NUL) as [->|Hc]; [discriminate|auto].
Qed.

Lemma c_str_app_inv (p q : string) :
  c_str (p +:+ q) = p +:+ q -> c_str p = p /\ c_str q = q.
Proof.
  induction p as [|c p IH]; intros H; [split; [reflexivity|assumption]|].
  rewrite append_cons in H. pose proof (c_str_head _ _ H) as Hc.
  rewrite !(c_str_cons c _ Hc) in *.
  injection H as H. destruct (IH H) as [-> ?]. split; [reflexivity|assumption].
Qed.

Lemma c_str_idemp (s : string) : c_str (c_str s) = c_str s.
Proof.
  induction s as [|c s IH]; simpl; [reflexivity|].
  destruct (Ascii.eqb_spec c NUL) as [->|Hc]; [reflexivity|].
  rewrite (c_str_cons c _ Hc), IH. reflexivity.
Qed.

(** A common part free of terminators is skipped by the loop. *)
Lemma StrCmpOptionName_app (p A B : string) :
  c_str p = p -> StrCmp (p +:+ A) (p +:+ B) = StrCmp A B.
Proof.
  induction p as [|c p IH]; intros Hp; [reflexivity|].
  pose proof (c_str_head _ _ Hp) as Hc.
  rewrite (c_str_cons c p Hc) in Hp. injection Hp as Hp.
  rewrite !append_cons, StrCmpOptionName_step. simpl deref. simpl advance.
  rewrite Ascii.eqb_refl.
  destruct (Ascii.eqb_spec c NUL); [congruence|]. apply IH, Hp.
Qed.

Lemma StrCmpOptionName_refl (s : string) : StrCmp s s = 0.
Proof.
  induction s as [|c s IH]; [reflexivity|].
  rewrite StrCmpOptionName_step. simpl deref. simpl advance.
  rewrite Ascii.eqb_refl.
  destruct (Ascii.eqb c NUL); [reflexivity|apply IH].
Qed.

Lemma StrCmpOptionName_zero_iff (A B : string) :
  StrCmp A B = 0 <-> c_str A = c_str B.
Proof.
  split.
  - intros H. apply StrCmp_view_zero. rewrite <- H. apply StrCmpOptionName_view.
  - intros H. rewrite StrCmpOptionName_c_str, H. apply StrCmpOptionName_refl.
Qed.

Lemma StrCmpOptionName_A_prefix (A B : string) (c : ascii) (rest : string) :
  c_str B = c_str A +:+ String c rest -> StrCmp A B = 1.
Proof.
  intros H. rewrite StrCmpOptionName_c_str, H.
  assert (Hfree : c_str (c_str A +:+ String c rest) = c_str A +:+ String c rest)
    by (rewrite <- H; apply c_str_idemp).
  apply c_str_app_inv in Hfree as [HA Hc]. apply c_str_head in Hc.
  rewrite <- (append_nil_r (c_str A)) at 1.
  rewrite StrCmpOptionName_app by assumption.
  rewrite StrCmpOptionName_step. simpl deref.
  destruct (Ascii.eqb_spec NUL c); [congruence|].
  rewrite Ascii.eqb_refl. reflexivity.
Qed.

Lemma StrCmpOptionName_B_prefix (A B : string) (c : ascii) (rest : string) :
  c_str A = c_str B +:+ String c rest -> StrCmp A B = -1.
Proof.
  intros H. rewrite StrCmpOptionName_c_str, H.
  assert (Hfree : c_str (c_str B +:+ String c rest) = c_str B +:+ String c rest)
    by (rewrite <- H; apply c_str_idemp).
  apply c_str_app_inv in Hfree as [HB Hc]. apply c_str_head in Hc.
  rewrite <- (append_nil_r (c_str B)) at 2.
  rewrite StrCmpOptionName_app by assumption.
  rewrite StrCmpOptionName_step. simpl deref.
  destruct (Ascii.eqb_spec c NUL); [congruence|].
  rewrite Ascii.eqb_refl. reflexivity.
Qed.

Lemma StrCmpOptionName_differ (A B p : string) (a b : ascii) (ra rb : string) :
  a <> b ->
  c_str A = p +:+ String a ra -> c_str B = p +:+ String b rb ->
  StrCmp A B = if char_lt char_is_signed a b then -1 else 1.
Proof.
  intros Hab HA HB. rewrite StrCmpOptionName_c_str, HA, HB.
  assert (HfA : c_str (p +:+ String a ra) = p +:+ String a ra)
    by (rewrite <- HA; apply c_str_idemp).
  assert (HfB : c_str (p +:+ String b rb) = p +:+ String b rb)
    by (rewrite <- HB; apply c_str_idemp).
  apply c_str_app_inv in HfA as [Hp Ha]. apply c_str_head in Ha.
  apply c_str_app_inv in HfB as [_ Hb]. apply c_str_head in Hb.
  rewrite StrCmpOptionName_app by assumption.
  rewrite StrCmpOptionName_step. simpl deref.
  destruct (Ascii.eqb_spec a b); [congruence|].
  destruct (Ascii.eqb_spec a NUL); [congruence|].
  destruct (Ascii.eqb_spec b NUL); [congruence|]. reflexivity.
Qed.

(** C9.  [StrCmpOptionName A B] is 0 exactly when the two C strings are
    equal; it is 1 when [A] is a proper prefix of [B] and -1 when [B] is a
    proper prefix of [A], so a proper prefix sorts after its extensions; and
    when the strings first differ at some position it is -1 or 1 as the
    character of [A] there is smaller than that of [B] or not. *)
Theorem StrCmpOptionName_spec (A B : string) :
  (StrCmp A B = 0 <-> c_str A = c_str B) /\
  (forall c rest, c_str B = c_str A +:+ String c rest -> StrCmp A B = 1) /\
  (forall c rest, c_str A = c_str B +:+ String c rest -> StrCmp A B = -1) /\
  (forall p a b ra rb,
      a <> b ->
      c_str A = p +:+ String a ra -> c_str B = p +:+ String b rb ->
      StrCmp A B = if char_lt char_is_signed a b then -1 else 1).
Proof.
  split; [apply StrCmpOptionName_zero_iff|].
  split; [intros c rest; apply StrCmpOptionName_A_prefix|].
  split; [intros c rest; apply StrCmpOptionName_B_prefix|].
  intros p a b ra rb. apply StrCmpOptionName_differ.
Qed.

(** ** The comparator *)

Lemma char_value_inj (a b : ascii) :
  char_value char_is_signed a = char_value char_is_signed b -> a = b.
Proof.
  unfold char_value. intros H.
  pose proof (N_ascii_bounded a) as Ba. pose proof (N_ascii_bounded b) as Bb.
  rewrite <- (ascii_N_embedding a), <- (ascii_N_embedding b). f_equal.
  destruct char_is_signed; simpl in H;
    repeat match type of H with
           | context [?x <=? ?y] => destruct (Z.leb_spec x y)
           end; lia.
Qed.

Lemma StrCmpOptionName_antisym (A B : string) : StrCmp B A = - StrCmp A B.
Proof.
  revert B. induction A as [|a A IH]; intros B.
  - rewrite (StrCmpOptionName_step B), (StrCmpOptionName_step EmptyString).
    simpl deref. rewrite Ascii.eqb_refl, (Ascii.eqb_sym (deref B) NUL).
    destruct (Ascii.eqb NUL (deref B)); reflexivity.
  - rewrite (StrCmpOptionName_step B), (StrCmpOptionName_step (String a A)).
    simpl deref. simpl advance.
    rewrite (Ascii.eqb_sym (deref B) a).
    destruct (Ascii.eqb_spec a (deref B)) as [E|E].
    + rewrite <- E. destruct (Ascii.eqb a NUL); [reflexivity|apply IH].
    + destruct (Ascii.eqb_spec (deref B) NUL), (Ascii.eqb_spec a NUL);
        try reflexivity; [congruence|].
      unfold char_lt.
      assert (char_value char_is_signed a <> char_value char_is_signed (deref B))
        by (intros Hv; apply E, char_value_inj, Hv).
      destruct (Z.ltb_spec (char_value char_is_signed (deref B))
                           (char_value char_is_signed a)),
               (Z.ltb_spec (char_value char_is_signed a)
                           (char_value char_is_signed (deref B))); lia.
Qed.

Lemma ComparePrefixes_antisym (APre BPre : list string) :
  ComparePrefixes char_is_signed BPre APre
  = Z.opp <$> ComparePrefixes char_is_signed APre BPre.
Proof.
  revert BPre. induction APre as [|a APre IH]; intros [|b BPre]; try reflexivity.
  simpl. rewrite (StrCmpOptionName_antisym a b), IH.
  destruct (Z.eqb_spec (StrCmp a b) 0) as [->|Hne]; [reflexivity|].
  destruct (Z.eqb_spec (- StrCmp a b) 0); [lia|reflexivity].
Qed.

Lemma ComparePrefixes_refl (Pre : list string) :
  ComparePrefixes char_is_signed Pre Pre = None.
Proof.
  induction Pre as [|a Pre IH]; [reflexivity|].
  simpl. rewrite StrCmpOptionName_refl. apply IH.
Qed.

(** The loop never returns 0: it returns what [StrCmpOptionName] gave when
    that was not 0. *)
Lemma ComparePrefixes_nonzero (APre BPre : list string) (Cmp : Z) :
  ComparePrefixes char_is_signed APre BPre = Some Cmp -> Cmp <> 0.
Proof.
  revert BPre. induction APre as [|a APre IH]; intros [|b BPre]; try discriminate.
  simpl. destruct (Z.eqb_spec (StrCmp a b) 0); [apply IH|].
  intros [= <-]. assumption.
Qed.

(** Two options that agree on kind, name and prefixes are reported as
    equivalent whenever the comparator is called on them. *)
Lemma CompareOptionRecords_equivalent (A B : OptionRecord) :
  Kind A = Kind B -> Name A = Name B -> Prefixes A = Prefixes B ->
  CompareOptionRecords char_is_signed A B
  = FatalError [ (Some (Loc A), "Option is equivilent to"%string);
                 (Some (Loc B), "Other defined here"%string);
                 (None, "Equivalent Options found."%string) ].
Proof.
  intros HK HN HP. unfold CompareOptionRecords.
  rewrite <- HK, <- HN, <- HP.
  rewrite Bool.eqb_reflx. simpl negb at 1. cbv iota.
  rewrite StrCmpOptionName_refl, ComparePrefixes_refl.
  assert (E : (if negb (Sentinel (Kind A)) then 0 else 0) = 0)
    by (destruct (negb _); reflexivity).
  rewrite E. simpl.
  rewrite Z.eqb_refl. unfold string_list_eqb.
  rewrite bool_decide_eq_true_2 by reflexivity.
  destruct (negb (Sentinel (Kind A))); reflexivity.
Qed.

(** Swapping the arguments negates the result, except in one case: options
    of the same sentinel status whose names and prefixes pass the two
    comparison steps, whose precedences are equal and whose prefix lists are
    not the same list.  There both calls return 1. *)
Lemma CompareOptionRecords_swap (A B : OptionRecord) (c c' : Z) :
  CompareOptionRecords char_is_signed A B = Returns c ->
  CompareOptionRecords char_is_signed B A = Returns c' ->
  c' = - c \/
  (c = 1 /\ c' = 1 /\
   Sentinel (Kind A) = Sentinel (Kind B) /\
   to_int (Precedence (Kind A)) = to_int (Precedence (Kind B)) /\
   Prefixes A <> Prefixes B).
Proof.
  unfold CompareOptionRecords.
  rewrite (StrCmpOptionName_antisym (Name A) (Name B)).
  rewrite (ComparePrefixes_antisym (Prefixes A) (Prefixes B)).
  unfold string_list_eqb.
  rewrite (Z.eqb_sym (to_int (Precedence (Kind B)))).
  destruct (Sentinel (Kind A)) eqn:SA, (Sentinel (Kind B)) eqn:SB; simpl.
  - case_bool_decide as EAB; case_bool_decide as EBA;
      try (exfalso; congruence).
    + destruct (Z.eqb_spec (to_int (Precedence (Kind A)))
                           (to_int (Precedence (Kind B)))); simpl;
        [discriminate|].
      intros [= <-] [= <-].
      destruct (Z.ltb_spec (to_int (Precedence (Kind A)))
                           (to_int (Precedence (Kind B)))),
               (Z.ltb_spec (to_int (Precedence (Kind B)))
                           (to_int (Precedence (Kind A)))); lia.
    + rewrite !andb_false_r. intros [= <-] [= <-].
      destruct (Z.ltb_spec (to_int (Precedence (Kind A)))
                           (to_int (Precedence (Kind B)))),
               (Z.ltb_spec (to_int (Precedence (Kind B)))
                           (to_int (Precedence (Kind A)))); try lia.
      right. repeat split; auto; lia.
  - intros [= <-] [= <-]. left. reflexivity.
  - intros [= <-] [= <-]. left. reflexivity.
  - destruct (Z.eqb_spec (StrCmp (Name A) (Name B)) 0) as [E0|E0].
    + rewrite E0. simpl.
      destruct (ComparePrefixes char_is_signed (Prefixes A) (Prefixes B))
        as [Cmp|] eqn:EP; simpl.
      * intros [= <-] [= <-]. left. reflexivity.
      * case_bool_decide as EAB; case_bool_decide as EBA;
          try (exfalso; congruence).
        -- destruct (Z.eqb_spec (to_int (Precedence (Kind A)))
                                (to_int (Precedence (Kind B)))); simpl;
             [discriminate|].
           intros [= <-] [= <-].
           destruct (Z.ltb_spec (to_int (Precedence (Kind A)))
                                (to_int (Precedence (Kind B)))),
                    (Z.ltb_spec (to_int (Precedence (Kind B)))
                                (to_int (Precedence (Kind A)))); lia.
        -- rewrite !andb_false_r. intros [= <-] [= <-].
           destruct (Z.ltb_spec (to_int (Precedence (Kind A)))
                                (to_int (Precedence (Kind B)))),
                    (Z.ltb_spec (to_int (Precedence (Kind B)))
                                (to_int (Precedence (Kind A)))); try lia.
           right. repeat split; auto; lia.
    + destruct (Z.eqb_spec (- StrCmp (Name A) (Name B)) 0); [lia|]. simpl.
      intros [= <-] [= <-]. left. reflexivity.
Qed.

End CharFacts.

Import Tables.

Lemma StrCmpOptionName_spec_witness :
  StrCmpOptionName true "ab" "ab" = 0 /\
  StrCmpOptionName true "ab" "abc" = 1 /\
  StrCmpOptionName true "abc" "ab" = -1 /\
  StrCmpOptionName true "abd" "abc" = 1.
Proof.
  pose proof (StrCmpOptionName_spec true "ab" "ab") as (H0 & _).
  pose proof (StrCmpOptionName_spec true "ab" "abc") as (_ & H1 & _).
  pose proof (StrCmpOptionName_spec true "abc" "ab") as (_ & _ & H2 & _).
  pose proof (StrCmpOptionName_spec true "abd" "abc") as (_ & _ & _ & H3).
  split; [apply H0; reflexivity|].
  split; [apply (H1 "c"%char ""%string); reflexivity|].
  split; [apply (H2 "c"%char ""%string); reflexivity|].
  apply (H3 "ab"%string "d"%char "c"%char ""%string ""%string);
    [discriminate|reflexivity|reflexivity].
Defined.

(** C8.  The comparator is not antisymmetric.  [optX] and [optA] have the
    same name and the same kind precedence, and the prefix list of [optX] is
    a proper initial part of that of [optA]: the comparator returns 1 for the
    pair in either order, where antisymmetry asks for opposite signs. *)
Theorem CompareOptionRecords_not_antisymmetric (char_is_signed : bool) :
  CompareOptionRecords char_is_signed optX optA = Returns 1 /\
  CompareOptionRecords char_is_signed optA optX = Returns 1.
Proof. destruct char_is_signed; split; reflexivity. Qed.

(** ** The sort *)

(** The bound on the depth of the merge sort is never reached: any depth from
    the length of the array on gives the same run. *)
Lemma msort_depth_step {T : Type} (Compare : T -> T -> outcome Z)
    (depth : nat) (b : list T) :
  (length b <= depth)%nat ->
  msort Compare (S depth) b = msort Compare depth b.
Proof.
  revert b. induction depth as [|depth IH]; intros b Hlen.
  - destruct b; [reflexivity|simpl in Hlen; lia].
  - change (msort Compare (S (S depth)) b) with
      (if (length b <=? 1)%nat then Returns b
       else b1 ← msort Compare (S depth) (take (length b / 2) b);
            b2 ← msort Compare (S depth) (drop (length b / 2) b);
            merge_runs Compare b1 b2).
    change (msort Compare (S depth) b) with
      (if (length b <=? 1)%nat then Returns b
       else b1 ← msort Compare depth (take (length b / 2) b);
            b2 ← msort Compare depth (drop (length b / 2) b);
            merge_runs Compare b1 b2).
    destruct (Nat.leb_spec (length b) 1) as [|Hbig]; [reflexivity|].
    pose proof (Nat.div_mod_eq (length b) 2) as Hdiv.
    pose proof (Nat.mod_upper_bound (length b) 2 ltac:(lia)) as Hmod.
    rewrite (IH (take _ b)) by (rewrite length_take; lia).
    rewrite (IH (drop _ b)) by (rewrite length_drop; lia).
    reflexivity.
Qed.

Lemma msort_depth_enough {T : Type} (Compare : T -> T -> outcome Z)
    (depth : nat) (b : list T) :
  (length b <= depth)%nat ->
  msort Compare depth b = qsort_merge Compare b.
Proof.
  unfold qsort_merge. induction depth as [|depth IH]; intros Hlen.
  - replace (length b) with 0%nat by lia. reflexivity.
  - destruct (Nat.eq_dec (length b) (S depth)) as [->|Hne]; [reflexivity|].
    rewrite msort_depth_step by lia. apply IH. lia.
Qed.

(** When the repeated pair is all there is, the sort has to compare it and
    the tool stops. *)
Example EmitOptParser_sort_pair (char_is_signed : bool) :
  EmitOptParser_sort char_is_signed (@qsort_insertion) [optA; optB]
  = FatalError [ (Some 20%nat, "Option is equivilent to"%string);
                 (Some 40%nat, "Other defined here"%string);
                 (None, "Equivalent Options found."%string) ] /\
  EmitOptParser_sort char_is_signed (@qsort_merge) [optA; optB]
  = FatalError [ (Some 20%nat, "Option is equivilent to"%string);
                 (Some 40%nat, "Other defined here"%string);
                 (None, "Equivalent Options found."%string) ].
Proof. destruct char_is_signed; split; reflexivity. Qed.

(** One table of six options that either strategy sorts to the end, though
    [optA] and [optB] are the same option. *)
Example EmitOptParser_sort_six (char_is_signed : bool) :
  EmitOptParser_sort char_is_signed (@qsort_insertion)
    [optX; optA; optY; optW; optB; optV]
  = Returns [optA; optX; optW; optY; optB; optV] /\
  EmitOptParser_sort char_is_signed (@qsort_merge)
    [optX; optA; optY; optW; optB; optV]
  = Returns [optB; optX; optY; optA; optV; optW].
Proof. destruct char_is_signed; split; reflexivity. Qed.

(** C2.  A table with a repeated option can be sorted without the fatal
    error.  [optA] and [optB] agree on kind, name and prefixes.  With the
    insertion strategy the sort of [optX; optA; optY; optB] returns: the
    comparator places [optA] before [optX] (the pair on which it is not
    antisymmetric), [optX] before [optY] and [optY] before [optB], and with
    these three answers the order is settled.  With the merge strategy the
    sort of [optA; optX; optB; optZ] returns in the same way.  In neither run
    is the comparator called on the repeated pair. *)
Theorem EmitOptParser_sort_misses_duplicate (char_is_signed : bool) :
  (Kind optA = Kind optB /\ Name optA = Name optB /\
   Prefixes optA = Prefixes optB) /\
  (CompareOptionRecords char_is_signed optX optA = Returns 1 /\
   CompareOptionRecords char_is_signed optX optY = Returns (-1) /\
   CompareOptionRecords char_is_signed optY optB = Returns (-1)) /\
  EmitOptParser_sort char_is_signed (@qsort_insertion)
    [optX; optA; optY; optB]
  = Returns [optA; optX; optY; optB] /\
  EmitOptParser_sort char_is_signed (@qsort_merge)
    [optA; optX; optB; optZ]
  = Returns [optB; optX; optA; optZ].
Proof. destruct char_is_signed; repeat split; reflexivity. Qed.

End OptParserEmitterFacts.


Module LexFacts.

Import Lex.

(** ** Bit-fields *)

Lemma bitfield_range (w v : Z) : 0 <= w -> 0 <= bitfield w v < 2 ^ w.
Proof. intros Hw. unfold bitfield. apply Z.mod_pos_bound. lia. Qed.

Lemma bitfield_small (w v : Z) : 0 <= v < 2 ^ w -> bitfield w v = v.
Proof. intros Hv. unfold bitfield. apply Z.mod_small, Hv. Qed.

Lemma bitfield_b2z (b : bool) : bitfield 1 (Z.b2z b) = Z.b2z b.
Proof. destruct b; reflexivity. Qed.

(** Both constructors build objects whose bit-fields are within their
    widths. *)
Lemma DirectoryLookup_of_dir_ok (dir : ptr) (DT : Z) (isFramework : bool) :
  bitfields_ok (DirectoryLookup_of_dir dir DT isFramework).
Proof.
  unfold bitfields_ok; cbn [DirCharacteristic LookupType IsIndexHeaderMap
                            DirectoryLookup_of_dir].
  pose proof (bitfield_range 2 DT ltac:(lia)) as H2.
  change (2 ^ 2) with 4 in H2.
  split; [exact H2|]. split; vm_compute; split; congruence.
Qed.

Lemma DirectoryLookup_of_map_ok (map : ptr) (DT : Z) (isIndexHeaderMap : bool) :
  bitfields_ok (DirectoryLookup_of_map map DT isIndexHeaderMap).
Proof.
  unfold bitfields_ok; cbn [DirCharacteristic LookupType IsIndexHeaderMap
                            DirectoryLookup_of_map].
  pose proof (bitfield_range 2 DT ltac:(lia)) as H2.
  change (2 ^ 2) with 4 in H2.
  split; [exact H2|].
  split; [|destruct isIndexHeaderMap]; vm_compute; split; congruence.
Qed.

(** ** The constructors seen through the accessors *)

Lemma isNormalDir_of_dir dir DT fw :
  isNormalDir (DirectoryLookup_of_dir dir DT fw) = true.
Proof. reflexivity. Qed.

Lemma isHeaderMap_of_dir dir DT fw :
  isHeaderMap (DirectoryLookup_of_dir dir DT fw) = false.
Proof. reflexivity. Qed.

Lemma isNormalDir_of_map map DT idx :
  isNormalDir (DirectoryLookup_of_map map DT idx) = false.
Proof. reflexivity. Qed.

Lemma isHeaderMap_of_map map DT idx :
  isHeaderMap (DirectoryLookup_of_map map DT idx) = true.
Proof. reflexivity. Qed.

(** C4.  The accessors of the two variants are total.  On every object
    [getDir] is the stored pointer when the entry is a normal directory and
    the null pointer otherwise, and [getHeaderMap] is the stored pointer when
    the entry is a header map and the null pointer otherwise; in particular
    an entry built from a directory gives back that directory and a null
    header map, and an entry built from a header map gives back that map and
    a null directory. *)
Theorem variant_accessors_total :
  (forall d : DirectoryLookup,
      getDir d = (if isNormalDir d then u_Dir d else nullptr) /\
      getHeaderMap d = (if isHeaderMap d then u_Map d else nullptr)) /\
  (forall dir DT fw,
      getDir (DirectoryLookup_of_dir dir DT fw) = dir /\
      getHeaderMap (DirectoryLookup_of_dir dir DT fw) = nullptr) /\
  (forall map DT idx,
      getHeaderMap (DirectoryLookup_of_map map DT idx) = map /\
      getDir (DirectoryLookup_of_map map DT idx) = nullptr).
Proof.
  split; [|split].
  - intros d. split; reflexivity.
  - intros dir DT fw. split; reflexivity.
  - intros map DT idx. split; reflexivity.
Qed.

(** C5.  Exactly one variant is live.  On the objects built by either
    constructor, and on every object whose bit-fields are within their
    widths, [isNormalDir] and [isHeaderMap] return opposite values; the
    accessors are functions of the object and leave it as it is. *)
Theorem exactly_one_variant :
  (forall dir DT fw,
      isNormalDir (DirectoryLookup_of_dir dir DT fw) = true /\
      isHeaderMap (DirectoryLookup_of_dir dir DT fw) = false) /\
  (forall map DT idx,
      isNormalDir (DirectoryLookup_of_map map DT idx) = false /\
      isHeaderMap (DirectoryLookup_of_map map DT idx) = true) /\
  (forall d : DirectoryLookup,
      bitfields_ok d -> isNormalDir d = negb (isHeaderMap d)).
Proof.
  split; [|split].
  - intros dir DT fw. split; reflexivity.
  - intros map DT idx. split; reflexivity.
  - intros d (_ & HL & _). unfold isNormalDir, isHeaderMap, getLookupType.
    unfold LT_NormalDir, LT_HeaderMap.
    destruct (Z.eqb_spec (LookupType d) 0), (Z.eqb_spec (LookupType d) 1);
      simpl; try reflexivity; lia.
Qed.

Lemma exactly_one_variant_witness :
  bitfields_ok (mkDirectoryLookup 4096%N C_System LT_HeaderMap 1) /\
  isNormalDir (mkDirectoryLookup 4096%N C_System LT_HeaderMap 1)
  = negb (isHeaderMap (mkDirectoryLookup 4096%N C_System LT_HeaderMap 1)).
Proof.
  assert (Hok : bitfields_ok (mkDirectoryLookup 4096%N C_System LT_HeaderMap 1))
    by (unfold bitfields_ok; simpl; unfold C_System, LT_HeaderMap; lia).
  split; [exact Hok|].
  exact (proj2 (proj2 exactly_one_variant) _ Hok).
Defined.

(** C7.  A characteristic among the four values of the two-bit field is
    returned unchanged by [getDirCharacteristic], whichever constructor built
    the entry. *)
Theorem getDirCharacteristic_ctor (dir map : ptr) (DT : Z)
    (isFramework isIndexHeaderMap : bool) :
  0 <= DT < 4 ->
  getDirCharacteristic (DirectoryLookup_of_dir dir DT isFramework) = DT /\
  getDirCharacteristic (DirectoryLookup_of_map map DT isIndexHeaderMap) = DT.
Proof.
  intros HDT. unfold getDirCharacteristic; simpl.
  rewrite bitfield_small by (cbn; lia). split; reflexivity.
Qed.

Lemma getDirCharacteristic_ctor_witness :
  getDirCharacteristic (DirectoryLookup_of_dir 4096%N C_ExternCSystem false)
  = C_ExternCSystem /\
  getDirCharacteristic (DirectoryLookup_of_map 4096%N C_ExternCSystem true)
  = C_ExternCSystem.
Proof.
  apply (getDirCharacteristic_ctor 4096%N 4096%N C_ExternCSystem false true).
  unfold C_ExternCSystem. lia.
Defined.

(** C10.  [isIndexHeaderMap] holds only of header maps: it is false on every
    entry built from a directory, it is the flag given at construction on
    every entry built from a header map, and whenever it is true
    [isHeaderMap] is true. *)
Theorem isIndexHeaderMap_spec :
  (forall dir DT fw,
      isIndexHeaderMap (DirectoryLookup_of_dir dir DT fw) = false) /\
  (forall map DT idx,
      isIndexHeaderMap (DirectoryLookup_of_map map DT idx) = idx) /\
  (forall d : DirectoryLookup,
      isIndexHeaderMap d = true -> isHeaderMap d = true).
Proof.
  split; [|split].
  - intros dir DT fw. reflexivity.
  - intros map DT [|]; reflexivity.
  - intros d H. unfold isIndexHeaderMap in H.
    apply andb_true_iff in H as [H _]. exact H.
Qed.

Lemma isIndexHeaderMap_spec_witness :
  isIndexHeaderMap (DirectoryLookup_of_map 4096%N C_User true) = true /\
  isHeaderMap (DirectoryLookup_of_map 4096%N C_User true) = true.
Proof.
  split; [reflexivity|].
  apply (proj2 (proj2 isIndexHeaderMap_spec)). reflexivity.
Defined.

Section Framework.

(** [getName] is declared at line 85 and defined in a translation unit that
    is not among the sources; it is a [const] member without arguments, so
    what it returns is a function of the object. *)
Variable getName : DirectoryLookup -> string.

(** C6.  The [isFramework] argument of the directory constructor leaves no
    trace: the objects built with [true] and with [false] are the same
    object, and so every accessor returns the same on both. *)
Theorem isFramework_not_recorded (dir : ptr) (DT : Z) :
  let d1 := DirectoryLookup_of_dir dir DT true in
  let d2 := DirectoryLookup_of_dir dir DT false in
  d1 = d2 /\
  getLookupType d1 = getLookupType d2 /\
  getName d1 = getName d2 /\
  getDir d1 = getDir d2 /\
  getHeaderMap d1 = getHeaderMap d2 /\
  isNormalDir d1 = isNormalDir d2 /\
  isHeaderMap d1 = isHeaderMap d2 /\
  getDirCharacteristic d1 = getDirCharacteristic d2 /\
  isIndexHeaderMap d1 = isIndexHeaderMap d2.
Proof. repeat split. Qed.

End Framework.

End LexFacts.

Module HeaderSearchFacts.

Import Lex HeaderSearch.

Section Resolve.

Variable lookupFile : DirectoryLookup -> string -> option EntryHit.
Variable statFile : string -> string -> option ptr.
Variable SL : SearchList.

Local Abbreviation scanEntries := (scanEntries lookupFile).
Local Abbreviation scan := (scan lookupFile SL).
Local Abbreviation resolve := (resolve lookupFile statFile SL).
Local Abbreviation misses := (misses lookupFile).

Lemma scanEntries_miss_head kind filename e es :
  misses kind filename e ->
  scanEntries kind filename (e :: es) = scanEntries kind filename es.
Proof.
  intros [H|H]; simpl; rewrite H; [reflexivity|].
  destruct (skipped kind e); reflexivity.
Qed.

Lemma scanEntries_hit_head kind filename e es h :
  skipped kind e = false -> lookupFile e.1 filename = Some h ->
  scanEntries kind filename (e :: es) = Some (foundIn e h).
Proof. intros H1 H2. simpl. rewrite H1, H2. reflexivity. Qed.

(** The scan returns the hit of the first entry that is looked up and hits. *)
Lemma scanEntries_first kind filename es n e h :
  es !! n = Some e ->
  skipped kind e = false -> lookupFile e.1 filename = Some h ->
  (forall m e', (m < n)%nat -> es !! m = Some e' -> misses kind filename e') ->
  scanEntries kind filename es = Some (foundIn e h).
Proof.
  revert n. induction es as [|e0 es IH]; intros n Hn Hs Hh Hbefore.
  - discriminate.
  - destruct n as [|n].
    + injection Hn as ->. apply scanEntries_hit_head; assumption.
    + rewrite scanEntries_miss_head by (apply (Hbefore 0%nat); [lia|reflexivity]).
      apply (IH n); [exact Hn|assumption..|].
      intros m e' Hm He'. apply (Hbefore (S m)); [lia|exact He'].
Qed.

(** When some entry is looked up and hits, the scan returns a hit, and it is
    that of an entry no later than this one. *)
Lemma scanEntries_shadow kind filename es n e h :
  es !! n = Some e ->
  skipped kind e = false -> lookupFile e.1 filename = Some h ->
  exists k e1 h1,
    (k <= n)%nat /\ es !! k = Some e1 /\
    skipped kind e1 = false /\ lookupFile e1.1 filename = Some h1 /\
    (forall m e', (m < k)%nat -> es !! m = Some e' -> misses kind filename e') /\
    scanEntries kind filename es = Some (foundIn e1 h1).
Proof.
  revert n. induction es as [|e0 es IH]; intros n Hn Hs Hh; [discriminate|].
  assert (Hlater : misses kind filename e0 ->
    exists k e1 h1,
      (k <= n)%nat /\ (e0 :: es) !! k = Some e1 /\
      skipped kind e1 = false /\ lookupFile e1.1 filename = Some h1 /\
      (forall m e', (m < k)%nat -> (e0 :: es) !! m = Some e' ->
                    misses kind filename e') /\
      scanEntries kind filename (e0 :: es) = Some (foundIn e1 h1)).
  { intros Hmiss.
    destruct n as [|n].
    { injection Hn as ->. destruct Hmiss; congruence. }
    destruct (IH n Hn Hs Hh) as (k & e1 & h1 & Hk & He1 & Hs1 & Hh1 & Hb & Hr).
    exists (S k), e1, h1.
    split; [lia|]. split; [exact He1|]. split; [exact Hs1|].
    split; [exact Hh1|]. split.
    - intros [|m] e' Hm He'; [injection He' as <-; exact Hmiss|].
      apply (Hb m); [lia|exact He'].
    - rewrite scanEntries_miss_head by exact Hmiss. exact Hr. }
  destruct (skipped kind e0) eqn:Hs0; [apply Hlater; left; exact Hs0|].
  destruct (lookupFile e0.1 filename) as [h0|] eqn:Hh0;
    [|apply Hlater; right; exact Hh0].
  exists 0%nat, e0, h0.
  split; [lia|]. split; [reflexivity|]. split; [exact Hs0|].
  split; [exact Hh0|]. split.
  - intros m e' Hm. lia.
  - apply scanEntries_hit_head; assumption.
Qed.

(** When the including directory does not answer and no outcome is cached
    for the query, [resolve] returns what the scan finds. *)
Lemma resolve_scans sess filename kind includingDir :
  (includingDirLookup statFile sess filename kind includingDir).1 = None ->
  sharedCache sess !! (filename, startIndex SL kind) = None ->
  (resolve sess filename kind includingDir).1 = scan kind filename.
Proof.
  unfold HeaderSearch.resolve.
  destruct (includingDirLookup statFile sess filename kind includingDir)
    as [r sess1] eqn:E1.
  intros Hr Hc. simpl in Hr. subst r.
  assert (Hsame : sharedCache sess1 = sharedCache sess).
  { unfold includingDirLookup in E1.
    destruct kind; [injection E1 as <-; reflexivity|].
    destruct includingDir as [d|]; [|injection E1 as <-; reflexivity].
    destruct (dirCache sess !! (filename, dirPath d));
      injection E1 as _ <-; reflexivity. }
  rewrite Hsame, Hc. reflexivity.
Qed.

Local Abbreviation cacheAgrees := (cacheAgrees lookupFile SL).
Local Abbreviation reachable := (reachable lookupFile statFile SL).
Local Abbreviation kindsApart := (kindsApart SL).

Lemma includingDirLookup_sharedCache sess filename kind includingDir :
  sharedCache (includingDirLookup statFile sess filename kind includingDir).2
  = sharedCache sess.
Proof.
  unfold includingDirLookup.
  destruct kind; [reflexivity|].
  destruct includingDir as [d|]; [|reflexivity].
  destruct (dirCache sess !! (filename, dirPath d)); reflexivity.
Qed.

(** A query without a cached outcome satisfies [cacheAgrees]. *)
Lemma cacheAgrees_miss sess filename kind :
  sharedCache sess !! (filename, startIndex SL kind) = None ->
  cacheAgrees sess filename kind.
Proof. intros Hnone r Hr. congruence. Qed.

(** When the including directory does not answer and the cache agrees with
    the scan, [resolve] returns what the scan finds, computed or replayed. *)
Lemma resolve_scans_agree sess filename kind includingDir :
  (includingDirLookup statFile sess filename kind includingDir).1 = None ->
  cacheAgrees sess filename kind ->
  (resolve sess filename kind includingDir).1 = scan kind filename.
Proof.
  intros Hdir Hagree. unfold HeaderSearch.resolve.
  pose proof (includingDirLookup_sharedCache sess filename kind includingDir)
    as Hsame.
  destruct (includingDirLookup statFile sess filename kind includingDir)
    as [r sess1]. simpl in Hdir, Hsame. subst r. rewrite Hsame.
  destruct (sharedCache sess !! (filename, startIndex SL kind)) as [r|] eqn:E.
  - simpl. apply Hagree, E.
  - reflexivity.
Qed.

(** What [resolve] stores in the shared cache. *)
Lemma resolve_sharedCache sess filename kind includingDir key r :
  sharedCache (resolve sess filename kind includingDir).2 !! key = Some r ->
  sharedCache sess !! key = Some r \/
  (key = (filename, startIndex SL kind) /\ r = scan kind filename).
Proof.
  unfold HeaderSearch.resolve.
  pose proof (includingDirLookup_sharedCache sess filename kind includingDir)
    as Hsame.
  destruct (includingDirLookup statFile sess filename kind includingDir)
    as [[r1|] sess1]; simpl in Hsame; simpl.
  - rewrite Hsame. auto.
  - destruct (sharedCache sess1 !! (filename, startIndex SL kind)) eqn:E; simpl.
    + rewrite Hsame. auto.
    + destruct (decide (key = (filename, startIndex SL kind))) as [->|Hne].
      * rewrite lookup_insert_eq. intros [= <-]. auto.
      * rewrite lookup_insert_ne by congruence. rewrite Hsame. auto.
Qed.

(** Every outcome in the shared cache of a reachable session was computed by
    a scan from the start index of its key. *)
Lemma reachable_cache_scans sess :
  reachable sess ->
  forall filename start r,
    sharedCache sess !! (filename, start) = Some r ->
    exists kind, startIndex SL kind = start /\ r = scan kind filename.
Proof.
  induction 1 as [|sess f k d Hreach IH]; intros filename start r Hr.
  - simpl in Hr. rewrite lookup_empty in Hr. discriminate.
  - apply resolve_sharedCache in Hr as [Hold|[[= -> ->] ->]].
    + apply IH, Hold.
    + exists k. split; reflexivity.
Qed.

Lemma scanEntries_no_quote_only filename es :
  (forall e, e ∈ es -> e.2 = false) ->
  scanEntries Angled filename es = scanEntries Quoted filename es.
Proof.
  induction es as [|e es IH]; intros Hno; [reflexivity|].
  simpl. rewrite (Hno e) by (apply elem_of_cons; left; reflexivity).
  rewrite IH by (intros e' He'; apply Hno, elem_of_cons; right; exact He').
  reflexivity.
Qed.

(** In a reachable session the cache agrees with every query, as long as
    the two include kinds are kept apart. *)
Lemma reachable_cacheAgrees sess filename kind :
  kindsApart -> reachable sess -> cacheAgrees sess filename kind.
Proof.
  intros Hapart Hreach r Hr.
  destruct (reachable_cache_scans sess Hreach _ _ _ Hr) as (kind' & Hstart & ->).
  assert (Hsame : angledStart SL = 0%nat ->
                  scan Angled filename = scan Quoted filename).
  { intros H0. unfold HeaderSearch.scan. simpl startIndex. rewrite H0.
    apply scanEntries_no_quote_only. intros e He.
    apply (Hapart H0). apply (subseteq_drop _ _ e He). }
  destruct kind, kind'; simpl in Hstart; try reflexivity.
  - symmetry. apply Hsame. congruence.
  - apply Hsame. congruence.
Qed.


End Resolve.

Import SearchLists.



End HeaderSearchFacts.

Module OptParserEmitterMore.

Import OptParserEmitter OptParserEmitterFacts OptParserNotions.

(** ** The order of option names *)

(** X1.  Swapping the arguments of [StrCmpOptionName] negates the result,
    and the result is always -1, 0 or 1. *)
Theorem StrCmpOptionName_antisymmetric (char_is_signed : bool) (A B : string) :
  StrCmpOptionName char_is_signed B A = - StrCmpOptionName char_is_signed A B /\
  (StrCmpOptionName char_is_signed A B = -1 \/
   StrCmpOptionName char_is_signed A B = 0 \/
   StrCmpOptionName char_is_signed A B = 1).
Proof.
  split; [apply StrCmpOptionName_antisym|].
  destruct (StrCmpOptionName_view char_is_signed A B)
    as [s|s c r|s c r|p a b ra rb Hab]; auto.
  destruct (char_lt char_is_signed a b); auto.
Qed.

Lemma char_lt_trans (char_is_signed : bool) (a b c : ascii) :
  char_lt char_is_signed a b = true -> char_lt char_is_signed b c = true ->
  char_lt char_is_signed a c = true.
Proof. unfold char_lt. rewrite !Z.ltb_lt. lia. Qed.

Lemma char_lt_irrefl (char_is_signed : bool) (a : ascii) :
  char_lt char_is_signed a a = false.
Proof. unfold char_lt. apply Z.ltb_irrefl. Qed.

(** X2.  [StrCmpOptionName] orders names transitively: when it puts [A]
    before [B] and [B] before [C], it puts [A] before [C]. *)
Theorem StrCmpOptionName_transitive (char_is_signed : bool) (A B C : string) :
  StrCmpOptionName char_is_signed A B = -1 ->
  StrCmpOptionName char_is_signed B C = -1 ->
  StrCmpOptionName char_is_signed A C = -1.
Proof.
  revert B C. induction A as [|a A IH]; intros B C.
  - rewrite (StrCmpOptionName_step _ EmptyString B). simpl deref.
    rewrite Ascii.eqb_refl. destruct (Ascii.eqb NUL (deref B)); discriminate.
  - rewrite (StrCmpOptionName_step _ (String a A) B),
            (StrCmpOptionName_step _ B C),
            (StrCmpOptionName_step _ (String a A) C).
    simpl deref. simpl advance.
    generalize (IH (advance B) (advance C)).
    generalize (StrCmpOptionName char_is_signed A (advance B)).
    generalize (StrCmpOptionName char_is_signed (advance B) (advance C)).
    generalize (StrCmpOptionName char_is_signed A (advance C)).
    generalize (deref B) (deref C). clear. intros b c zAC zBC zAB Hrec.
    destruct (char_lt char_is_signed a b) eqn:Lab,
             (char_lt char_is_signed b c) eqn:Lbc;
      try pose proof (char_lt_trans _ _ _ _ Lab Lbc) as Lac;
      repeat match goal with
             | |- context [Ascii.eqb ?x ?y] =>
                 destruct (Ascii.eqb_spec x y); subst
             end;
      try rewrite char_lt_irrefl in *;
      try discriminate; try congruence; auto;
      intros; rewrite ?Lac, ?Lab, ?Lbc; congruence.
Qed.

Lemma StrCmpOptionName_transitive_witness :
  StrCmpOptionName true "help=" "help" = -1 /\
  StrCmpOptionName true "help" "version" = -1 /\
  StrCmpOptionName true "help=" "version" = -1.
Proof.
  assert (H1 : StrCmpOptionName true "help=" "help" = -1) by reflexivity.
  assert (H2 : StrCmpOptionName true "help" "version" = -1) by reflexivity.
  split; [exact H1|]. split; [exact H2|].
  exact (StrCmpOptionName_transitive true "help=" "help" "version" H1 H2).
Defined.

(** X3.  The comparison never looks past a terminator: two pairs of
    pointers that read the same C strings compare the same, whatever is
    stored behind the terminators. *)
Theorem StrCmpOptionName_stops_at_terminator (char_is_signed : bool)
    (A A' B B' : string) :
  c_str A = c_str A' -> c_str B = c_str B' ->
  StrCmpOptionName char_is_signed A B = StrCmpOptionName char_is_signed A' B'.
Proof.
  intros HA HB.
  rewrite (StrCmpOptionName_c_str _ A B), (StrCmpOptionName_c_str _ A' B').
  rewrite HA, HB. reflexivity.
Qed.

Lemma StrCmpOptionName_stops_at_terminator_witness :
  StrCmpOptionName true (String "a" (String NUL "x")) (String "b" (String NUL "y"))
  = StrCmpOptionName true "a" "b".
Proof.
  apply StrCmpOptionName_stops_at_terminator; reflexivity.
Defined.

Lemma char_value_ascii7 (c : ascii) :
  (N_of_ascii c <? 128)%N = true -> char_value true c = char_value false c.
Proof.
  intros H. apply N.ltb_lt in H. unfold char_value. simpl.
  destruct (Z.leb_spec 128 (Z.of_N (N_of_ascii c))); [lia|reflexivity].
Qed.

Lemma ascii7_deref (s : string) :
  ascii7 s = true -> (N_of_ascii (deref s) <? 128)%N = true.
Proof.
  destruct s as [|c s]; [reflexivity|].
  simpl. intros H. apply andb_true_iff in H as [H _]. exact H.
Qed.

Lemma ascii7_advance (s : string) : ascii7 s = true -> ascii7 (advance s) = true.
Proof.
  destruct s as [|c s]; [reflexivity|].
  simpl. intros H. apply andb_true_iff in H as [_ H]. exact H.
Qed.

Lemma StrCmpOptionName_ascii7 (s t : string) :
  ascii7 s = true -> ascii7 t = true ->
  StrCmpOptionName true s t = StrCmpOptionName false s t.
Proof.
  revert t. induction s as [|a s IH]; intros t Hs Ht.
  - rewrite (StrCmpOptionName_step true EmptyString t),
            (StrCmpOptionName_step false EmptyString t). reflexivity.
  - rewrite (StrCmpOptionName_step true (String a s) t),
            (StrCmpOptionName_step false (String a s) t).
    simpl deref. simpl advance.
    destruct (Ascii.eqb a (deref t)).
    + destruct (Ascii.eqb a NUL); [reflexivity|].
      apply IH; [apply (ascii7_advance (String a s)), Hs|apply ascii7_advance, Ht].
    + unfold char_lt.
      rewrite (char_value_ascii7 a) by apply (ascii7_deref (String a s)), Hs.
      rewrite (char_value_ascii7 (deref t)) by apply ascii7_deref, Ht.
      reflexivity.
Qed.

(** X4.  On names in seven-bit ASCII the comparison is the same whether
    plain [char] is signed or not; with a character of code 128 or more the
    two platforms can order a pair differently. *)
Theorem StrCmpOptionName_portable :
  (forall A B : string,
      ascii7 (c_str A) = true -> ascii7 (c_str B) = true ->
      StrCmpOptionName true A B = StrCmpOptionName false A B) /\
  StrCmpOptionName true (String (ascii_of_N 200) "") "a" = -1 /\
  StrCmpOptionName false (String (ascii_of_N 200) "") "a" = 1.
Proof.
  split; [|split; reflexivity].
  intros A B HA HB.
  rewrite (StrCmpOptionName_c_str true), (StrCmpOptionName_c_str false).
  apply StrCmpOptionName_ascii7; assumption.
Qed.

Lemma StrCmpOptionName_portable_witness :
  StrCmpOptionName true "help" "version" = StrCmpOptionName false "help" "version".
Proof.
  apply (proj1 StrCmpOptionName_portable); reflexivity.
Defined.

(** ** The order of option records *)

Lemma StrCmpOptionName_range (char_is_signed : bool) (A B : string) :
  StrCmpOptionName char_is_signed A B = -1 \/
  StrCmpOptionName char_is_signed A B = 0 \/
  StrCmpOptionName char_is_signed A B = 1.
Proof.
  destruct (StrCmpOptionName_view char_is_signed A B)
    as [s|s c r|s c r|p a b ra rb Hab]; auto.
  destruct (char_lt char_is_signed a b); auto.
Qed.

Lemma ComparePrefixes_range (char_is_signed : bool) (APre BPre : list string)
    (Cmp : Z) :
  ComparePrefixes char_is_signed APre BPre = Some Cmp -> Cmp = -1 \/ Cmp = 1.
Proof.
  revert BPre. induction APre as [|a APre IH]; intros [|b BPre]; try discriminate.
  simpl. destruct (Z.eqb_spec (StrCmpOptionName char_is_signed a b) 0) as [|Hne];
    [apply IH|].
  intros [= <-].
  destruct (StrCmpOptionName_range char_is_signed a b) as [?|[?|?]]; auto.
  congruence.
Qed.

(** X5.  The order the comparator gives to options.  A sentinel option comes
    before every option that is not one.  Two options that are not sentinels
    and whose names differ are ordered by [StrCmpOptionName] on the names
    alone, whatever their prefixes and precedences; so an option whose name
    extends the name of another comes before it. *)
Theorem CompareOptionRecords_order_policy (char_is_signed : bool)
    (A B : OptionRecord) :
  (Sentinel (Kind A) = true -> Sentinel (Kind B) = false ->
   CompareOptionRecords char_is_signed A B = Returns (-1) /\
   CompareOptionRecords char_is_signed B A = Returns 1) /\
  (Sentinel (Kind A) = false -> Sentinel (Kind B) = false ->
   c_str (Name A) <> c_str (Name B) ->
   CompareOptionRecords char_is_signed A B
   = Returns (StrCmpOptionName char_is_signed (Name A) (Name B))) /\
  (Sentinel (Kind A) = false -> Sentinel (Kind B) = false ->
   forall c rest, c_str (Name A) = c_str (Name B) +:+ String c rest ->
   CompareOptionRecords char_is_signed A B = Returns (-1)).
Proof.
  assert (Hname : Sentinel (Kind A) = false -> Sentinel (Kind B) = false ->
    StrCmpOptionName char_is_signed (Name A) (Name B) <> 0 ->
    CompareOptionRecords char_is_signed A B
    = Returns (StrCmpOptionName char_is_signed (Name A) (Name B))).
  { intros SA SB Hne. unfold CompareOptionRecords. rewrite SA, SB. simpl.
    destruct (Z.eqb_spec (StrCmpOptionName char_is_signed (Name A) (Name B)) 0);
      [contradiction|reflexivity]. }
  split; [|split].
  - intros SA SB. unfold CompareOptionRecords. rewrite SA, SB. split; reflexivity.
  - intros SA SB Hne. apply Hname; [assumption..|].
    rewrite StrCmpOptionName_zero_iff. exact Hne.
  - intros SA SB c rest Hext.
    rewrite Hname; [|assumption..|];
      rewrite (StrCmpOptionName_B_prefix _ _ _ c rest Hext);
      [reflexivity|discriminate].
Qed.

Lemma CompareOptionRecords_order_policy_witness :
  CompareOptionRecords true
    (mkOption 1 (mkKind false 3) "help=" ["--"]%string)
    (mkOption 2 (mkKind false 1) "help" ["-"]%string)
  = Returns (-1).
Proof.
  apply (proj2 (proj2 (CompareOptionRecords_order_policy true
           (mkOption 1 (mkKind false 3) "help=" ["--"]%string)
           (mkOption 2 (mkKind false 1) "help" ["-"]%string))))
    with (c := "="%char) (rest := ""%string); reflexivity.
Defined.

(** X6.  The comparator never answers 0: whenever it returns, the result is
    -1 or 1.  Two options are never left unordered; the only other outcome of
    a call is the fatal error. *)
Theorem CompareOptionRecords_never_zero (char_is_signed : bool)
    (A B : OptionRecord) (c : Z) :
  CompareOptionRecords char_is_signed A B = Returns c -> c = -1 \/ c = 1.
Proof.
  unfold CompareOptionRecords.
  destruct (negb (Bool.eqb (Sentinel (Kind A)) (Sentinel (Kind B)))).
  { intros [= <-]. destruct (Sentinel (Kind A)); auto. }
  destruct (negb (Sentinel (Kind A))).
  - destruct (Z.eqb_spec (StrCmpOptionName char_is_signed (Name A) (Name B)) 0)
      as [E|E]; simpl.
    + destruct (ComparePrefixes char_is_signed (Prefixes A) (Prefixes B))
        as [Cmp|] eqn:EP.
      * intros [= <-]. exact (ComparePrefixes_range _ _ _ _ EP).
      * destruct (_ && _); [discriminate|]. intros [= <-].
        destruct (_ <? _); auto.
    + intros [= <-].
      destruct (StrCmpOptionName_range char_is_signed (Name A) (Name B))
        as [?|[?|?]]; auto. contradiction.
  - simpl. destruct (_ && _); [discriminate|]. intros [= <-].
    destruct (_ <? _); auto.
Qed.

Lemma CompareOptionRecords_never_zero_witness :
  CompareOptionRecords true Tables.optX Tables.optA = Returns 1 /\
  ((1 : Z) = -1 \/ (1 : Z) = 1).
Proof.
  assert (H : CompareOptionRecords true Tables.optX Tables.optA = Returns 1)
    by reflexivity.
  split; [exact H|].
  exact (CompareOptionRecords_never_zero true Tables.optX Tables.optA 1 H).
Defined.

Lemma CompareOptionRecords_fatal_cases (char_is_signed : bool)
    (A B : OptionRecord) (diags : list (option nat * string)) :
  CompareOptionRecords char_is_signed A B = FatalError diags <->
  (Sentinel (Kind A) = Sentinel (Kind B) /\
   (Sentinel (Kind A) = true \/ c_str (Name A) = c_str (Name B)) /\
   to_int (Precedence (Kind A)) = to_int (Precedence (Kind B)) /\
   Prefixes A = Prefixes B) /\
  diags = equivalent_diags A B.
Proof.
  unfold CompareOptionRecords, string_list_eqb, equivalent_diags.
  pose proof (StrCmpOptionName_zero_iff char_is_signed (Name A) (Name B)) as Hz.
  destruct (Sentinel (Kind A)) eqn:SA, (Sentinel (Kind B)) eqn:SB; simpl.
  - destruct (Z.eqb_spec (to_int (Precedence (Kind A)))
                         (to_int (Precedence (Kind B)))) as [EP|EP];
      case_bool_decide as EL; simpl; split;
      try discriminate; try (intros [(_ & _ & ? & ?) _]; contradiction).
    + intros [= <-]. auto 10.
    + intros [_ ->]. reflexivity.
  - split; [discriminate|]. intros [(? & _) _]. discriminate.
  - split; [discriminate|]. intros [(? & _) _]. discriminate.
  - destruct (Z.eqb_spec (StrCmpOptionName char_is_signed (Name A) (Name B)) 0)
      as [E0|E0]; simpl.
    + destruct (ComparePrefixes char_is_signed (Prefixes A) (Prefixes B))
        as [Cmp|] eqn:EPre.
      * split; [discriminate|]. intros [(_ & _ & _ & EL) _].
        rewrite EL, ComparePrefixes_refl in EPre. discriminate.
      * destruct (Z.eqb_spec (to_int (Precedence (Kind A)))
                             (to_int (Precedence (Kind B)))) as [EP|EP];
          case_bool_decide as EL; simpl; split;
          try discriminate; try (intros [(_ & _ & ? & ?) _]; contradiction).
        -- intros [= <-]. apply Hz in E0. auto 10.
        -- intros [_ ->]. reflexivity.
    + split; [discriminate|]. intros [(_ & [?|EN] & _) _]; [discriminate|].
      apply Hz in EN. contradiction.
Qed.

(** X7.  When the comparator stops the tool.  A call ends in the fatal error
    exactly when the two options are both sentinels or both not, have the
    same precedence as an [int] and the same list of prefixes, and, unless
    they are sentinels, names that are the same C string.  The diagnostics are
    then the two notes at the places of the first and of the second option
    and the fatal message.  Names of sentinels are not looked at. *)
Theorem CompareOptionRecords_fatal_iff (char_is_signed : bool)
    (A B : OptionRecord) (diags : list (option nat * string)) :
  CompareOptionRecords char_is_signed A B = FatalError diags <->
  (Sentinel (Kind A) = Sentinel (Kind B) /\
   (Sentinel (Kind A) = true \/ c_str (Name A) = c_str (Name B)) /\
   to_int (Precedence (Kind A)) = to_int (Precedence (Kind B)) /\
   Prefixes A = Prefixes B) /\
  diags = equivalent_diags A B.
Proof. apply CompareOptionRecords_fatal_cases. Qed.

(** X8.  The fatal error does not depend on the order of the arguments: the
    comparator stops on ([A], [B]) exactly when it stops on ([B], [A]). *)
Theorem CompareOptionRecords_fatal_symmetric (char_is_signed : bool)
    (A B : OptionRecord) :
  CompareOptionRecords char_is_signed A B = FatalError (equivalent_diags A B) <->
  CompareOptionRecords char_is_signed B A = FatalError (equivalent_diags B A).
Proof.
  rewrite !CompareOptionRecords_fatal_cases.
  split; intros [(HS & HN & HP & HL) _]; (split; [|reflexivity]);
    (split; [congruence|]); (split; [|split; congruence]);
    (destruct HN as [HN|HN]; [left; congruence|right; congruence]).
Qed.

Lemma unordered_returns_1 (char_is_signed : bool) (A B : OptionRecord) :
  unordered char_is_signed A B ->
  CompareOptionRecords char_is_signed A B = Returns 1.
Proof.
  intros (HS & HN & HP & HL). unfold CompareOptionRecords, string_list_eqb.
  rewrite <- HS, Bool.eqb_reflx, <- HP, Z.eqb_refl, Z.ltb_irrefl.
  rewrite bool_decide_eq_false_2 by exact HL. simpl.
  destruct HN as [->|[HN HC]]; [reflexivity|].
  apply (StrCmpOptionName_zero_iff char_is_signed) in HN. rewrite HN, HC.
  destruct (Sentinel (Kind A)); reflexivity.
Qed.

Lemma unordered_sym (char_is_signed : bool) (A B : OptionRecord) :
  unordered char_is_signed A B -> unordered char_is_signed B A.
Proof.
  intros (HS & HN & HP & HL). repeat split; try congruence.
  destruct HN as [HN|[HN HC]]; [left; congruence|right].
  split; [congruence|].
  rewrite ComparePrefixes_antisym, HC. reflexivity.
Qed.

Lemma returns_1_unordered (char_is_signed : bool) (A B : OptionRecord) :
  CompareOptionRecords char_is_signed A B = Returns 1 ->
  CompareOptionRecords char_is_signed B A = Returns 1 ->
  unordered char_is_signed A B.
Proof.
  intros HAB HBA.
  destruct (CompareOptionRecords_swap char_is_signed A B 1 1 HAB HBA)
    as [?|(_ & _ & HS & HP & HL)]; [lia|].
  split; [exact HS|]. split; [|split; assumption].
  destruct (Sentinel (Kind A)) eqn:SA; [left; reflexivity|right].
  revert HAB HBA. unfold CompareOptionRecords.
  rewrite (StrCmpOptionName_antisym char_is_signed (Name A) (Name B)).
  rewrite (ComparePrefixes_antisym char_is_signed (Prefixes A) (Prefixes B)).
  rewrite <- HS, SA. simpl.
  destruct (Z.eqb_spec (StrCmpOptionName char_is_signed (Name A) (Name B)) 0)
    as [E0|E0].
  - rewrite E0. simpl.
    destruct (ComparePrefixes char_is_signed (Prefixes A) (Prefixes B))
      as [Cmp|]; simpl.
    + intros [= ->] [=].
    + intros _ _. split; [|reflexivity].
      apply (StrCmpOptionName_zero_iff char_is_signed), E0.
  - destruct (Z.eqb_spec (- StrCmpOptionName char_is_signed (Name A) (Name B)) 0);
      [lia|]. simpl. intros [= H1] [= H2]. lia.
Qed.

(** X9.  Apart from one case the comparator is antisymmetric.  When it
    returns on a pair in both orders, either the pair is not [unordered] and
    the two results are opposite, or the pair is [unordered] and both results
    are 1. *)
Theorem CompareOptionRecords_antisymmetric_unless (char_is_signed : bool)
    (A B : OptionRecord) (c c' : Z) :
  CompareOptionRecords char_is_signed A B = Returns c ->
  CompareOptionRecords char_is_signed B A = Returns c' ->
  (~ unordered char_is_signed A B /\ c' = - c) \/
  (unordered char_is_signed A B /\ c = 1 /\ c' = 1).
Proof.
  intros HAB HBA.
  destruct (CompareOptionRecords_swap char_is_signed A B c c' HAB HBA)
    as [Hopp|(-> & -> & _)].
  - left. split; [|exact Hopp]. intros Hun.
    pose proof (unordered_returns_1 _ _ _ Hun) as H1.
    pose proof (unordered_returns_1 _ _ _ (unordered_sym _ _ _ Hun)) as H2.
    rewrite H1 in HAB. rewrite H2 in HBA.
    injection HAB as <-. injection HBA as <-. lia.
  - right. split; [|split; reflexivity].
    apply returns_1_unordered; assumption.
Qed.

Lemma CompareOptionRecords_antisymmetric_unless_witness :
  CompareOptionRecords true Tables.optX Tables.optA = Returns 1 /\
  CompareOptionRecords true Tables.optA Tables.optX = Returns 1 /\
  ((~ unordered true Tables.optX Tables.optA /\ (1 : Z) = - 1) \/
   (unordered true Tables.optX Tables.optA /\ (1 : Z) = 1 /\ (1 : Z) = 1)).
Proof.
  assert (H1 : CompareOptionRecords true Tables.optX Tables.optA = Returns 1)
    by reflexivity.
  assert (H2 : CompareOptionRecords true Tables.optA Tables.optX = Returns 1)
    by reflexivity.
  split; [exact H1|]. split; [exact H2|].
  exact (CompareOptionRecords_antisymmetric_unless true
           Tables.optX Tables.optA 1 1 H1 H2).
Defined.

(** X19.  The prefix loop stops with the shorter list.  Prefixes that one
    option has beyond the number of prefixes of the other are never compared:
    appending to the longer list changes the result of the loop in neither
    order of the arguments. *)
Theorem ComparePrefixes_ignores_tail (char_is_signed : bool)
    (APre BPre extra : list string) :
  (length BPre <= length APre)%nat ->
  ComparePrefixes char_is_signed (APre ++ extra) BPre
  = ComparePrefixes char_is_signed APre BPre /\
  ComparePrefixes char_is_signed BPre (APre ++ extra)
  = ComparePrefixes char_is_signed BPre APre.
Proof.
  revert BPre. induction APre as [|a APre IH]; intros [|b BPre] Hlen;
    simpl in Hlen; try lia.
  - split; [destruct extra|]; reflexivity.
  - split; reflexivity.
  - destruct (IH BPre ltac:(lia)) as [H1 H2]. simpl.
    rewrite H1, H2. split; reflexivity.
Qed.

Lemma ComparePrefixes_ignores_tail_witness :
  ComparePrefixes true (["-"%string] ++ ["--"%string]) ["-"%string]
  = ComparePrefixes true ["-"%string] ["-"%string] /\
  ComparePrefixes true ["-"%string] (["-"%string] ++ ["--"%string])
  = ComparePrefixes true ["-"%string] ["-"%string].
Proof.
  apply ComparePrefixes_ignores_tail. simpl. lia.
Defined.

Lemma to_int_add (v k : Z) : to_int (v + k * 2 ^ 32) = to_int v.
Proof.
  unfold to_int.
  replace (v + k * 2 ^ 32 + 2 ^ 31) with (v + 2 ^ 31 + k * 2 ^ 32) by lia.
  rewrite Z.mod_add by lia. reflexivity.
Qed.

(** X20.  Precedences are compared as 32-bit [int]s.  Adding a multiple of
    [2^32] to the 64-bit precedence of the kind of either option changes no
    outcome of the comparator; in particular two options that differ only by
    such a multiple are reported as equivalent. *)
Theorem CompareOptionRecords_precedence_as_int (char_is_signed : bool)
    (A B : OptionRecord) (k : Z) :
  let shifted (R : OptionRecord) :=
    {| Loc := Loc R;
       Kind := {| Sentinel := Sentinel (Kind R);
                  Precedence := Precedence (Kind R) + k * 2 ^ 32 |};
       Name := Name R;
       Prefixes := Prefixes R |} in
  CompareOptionRecords char_is_signed (shifted A) B
  = CompareOptionRecords char_is_signed A B /\
  CompareOptionRecords char_is_signed A (shifted B)
  = CompareOptionRecords char_is_signed A B /\
  CompareOptionRecords char_is_signed A (shifted A)
  = FatalError (equivalent_diags A A).
Proof.
  intros shifted. subst shifted. unfold CompareOptionRecords. simpl.
  rewrite !to_int_add. split; [reflexivity|]. split; [reflexivity|].
  rewrite Bool.eqb_reflx, StrCmpOptionName_refl, ComparePrefixes_refl.
  rewrite Z.eqb_refl. unfold string_list_eqb.
  rewrite bool_decide_eq_true_2 by reflexivity. simpl.
  destruct (Sentinel (Kind A)); reflexivity.
Qed.

End OptParserEmitterMore.

Module PrefixGroupsFacts.

Import OptParserEmitter PrefixGroups.

Lemma unsigned_small (v : N) : (v < 2 ^ 32)%N -> unsigned v = v.
Proof. intros H. unfold unsigned. apply N.mod_small, H. Qed.

Lemma prefix_name_inj (i j : N) : prefix_name i = prefix_name j -> i = j.
Proof.
  unfold prefix_name. intros H.
  apply (inj (String.app "prefix_")) in H. apply (inj pretty) in H. exact H.
Qed.

Lemma prefix_name_0 : prefix_name 0 = "prefix_0"%string.
Proof. reflexivity. Qed.

Lemma assigned_names_init :
  assigned_names [[]] {[ [] := "prefix_0"%string ]} 0.
Proof.
  split.
  - apply NoDup_singleton.
  - reflexivity.
  - intros [|i] key; [|intros H; destruct i; discriminate].
    intros [= <-]. apply lookup_singleton_eq.
  - intros key Hkey. apply lookup_singleton_ne. intros <-.
    apply Hkey, list_elem_of_singleton. reflexivity.
  - apply map_size_singleton.
Qed.

Lemma assigned_names_lookup assigned m cur key :
  assigned_names assigned m cur ->
  (key ∈ assigned -> is_Some (m !! key)) /\
  (key ∉ assigned -> m !! key = None).
Proof.
  intros Inv. split; [|apply (assigned_only _ _ _ Inv)].
  intros Hin. apply list_elem_of_lookup in Hin as [i Hi].
  rewrite (assigned_name _ _ _ Inv i key Hi). eauto.
Qed.

Lemma prefix_step_seen assigned m cur R :
  assigned_names assigned m cur -> Prefixes R ∈ assigned ->
  prefix_step (m, cur) R = (m, cur).
Proof.
  intros Inv Hin. unfold prefix_step, map_insert. simpl.
  destruct (proj1 (assigned_names_lookup _ _ _ (Prefixes R) Inv) Hin) as [v ->].
  reflexivity.
Qed.

Lemma prefix_step_new assigned m cur R :
  assigned_names assigned m cur -> Prefixes R ∉ assigned ->
  (N.of_nat (length assigned) < 2 ^ 32)%N ->
  prefix_step (m, cur) R
  = (<[Prefixes R := prefix_name (cur + 1)]> m, (cur + 1)%N) /\
  assigned_names (assigned ++ [Prefixes R])
                 (<[Prefixes R := prefix_name (cur + 1)]> m) (cur + 1).
Proof.
  intros Inv Hnew Hbound.
  pose proof (assigned_cur _ _ _ Inv) as Hcur.
  pose proof (assigned_only _ _ _ Inv _ Hnew) as Hnone.
  split.
  - unfold prefix_step, map_insert. simpl. rewrite Hnone. simpl.
    rewrite unsigned_small by lia. reflexivity.
  - split.
    + apply NoDup_app. split; [apply (assigned_nodup _ _ _ Inv)|].
      split; [|apply NoDup_singleton].
      intros key Hin Hin'. apply list_elem_of_singleton in Hin'. subst key.
      contradiction.
    + rewrite length_app. simpl. lia.
    + intros i key Hi.
      destruct (lookup_app_Some assigned [Prefixes R] i key) as [Hsplit _].
      destruct (Hsplit Hi) as [Hold|[Hge Hlast]].
      * rewrite lookup_insert_ne.
        -- apply (assigned_name _ _ _ Inv), Hold.
        -- intros <-. apply Hnew. apply list_elem_of_lookup. eauto.
      * destruct (i - length assigned)%nat as [|k] eqn:Ek; [|destruct k; discriminate].
        injection Hlast as <-. rewrite lookup_insert_eq.
        do 2 f_equal. lia.
    + intros key Hkey. rewrite lookup_insert_ne.
      * apply (assigned_only _ _ _ Inv). intros Hin. apply Hkey.
        apply elem_of_app. left. exact Hin.
      * intros <-. apply Hkey. apply elem_of_app. right.
        apply list_elem_of_singleton. reflexivity.
    + rewrite map_size_insert_None by exact Hnone.
      rewrite length_app, (assigned_size _ _ _ Inv). simpl. lia.
Qed.

(** The loop from any state that satisfies the invariant. *)
Lemma prefix_loop_assigned (opts : list OptionRecord) :
  forall assigned m cur,
    assigned_names assigned m cur ->
    (N.of_nat (length assigned + length opts) <= 2 ^ 32)%N ->
    assigned_names (assigned ++ first_seen assigned (map Prefixes opts))
                   (fold_left prefix_step opts (m, cur)).1
                   (fold_left prefix_step opts (m, cur)).2.
Proof.
  induction opts as [|R opts IH]; intros assigned m cur Inv Hbound.
  - simpl. rewrite app_nil_r. exact Inv.
  - simpl map. simpl first_seen. simpl fold_left. simpl length in Hbound.
    destruct (decide (Prefixes R ∈ assigned)) as [Hin|Hnew].
    + rewrite (prefix_step_seen _ _ _ _ Inv Hin).
      apply IH; [exact Inv|lia].
    + destruct (prefix_step_new _ _ _ R Inv Hnew) as [-> Inv']; [lia|].
      replace (assigned ++ Prefixes R :: first_seen (assigned ++ [Prefixes R])
                                           (map Prefixes opts))
        with ((assigned ++ [Prefixes R])
              ++ first_seen (assigned ++ [Prefixes R]) (map Prefixes opts))
        by (rewrite <- app_assoc; reflexivity).
      apply IH; [exact Inv'|]. rewrite length_app. simpl. lia.
Qed.

Lemma EmitOptParser_prefixes_all (Opts : list OptionRecord) :
  (N.of_nat (length Opts) < 2 ^ 32)%N ->
  EmitOptParser_prefixes Opts
  = fold_left prefix_step Opts ({[ [] := "prefix_0"%string ]}, 0%N).
Proof.
  intros Hlen. unfold EmitOptParser_prefixes.
  rewrite unsigned_small by exact Hlen. rewrite Nat2N.id.
  rewrite firstn_all. reflexivity.
Qed.

Lemma EmitOptParser_prefixes_assigned (Opts : list OptionRecord) :
  (N.of_nat (length Opts) < 2 ^ 32)%N ->
  assigned_names (groups Opts) (EmitOptParser_prefixes Opts).1
                 (EmitOptParser_prefixes Opts).2.
Proof.
  intros Hlen. rewrite EmitOptParser_prefixes_all by exact Hlen.
  apply (prefix_loop_assigned Opts [[]]); [apply assigned_names_init|].
  simpl length. lia.
Qed.

Lemma first_seen_covers (keys : list (list string)) :
  forall seen key, key ∈ keys -> key ∈ seen ++ first_seen seen keys.
Proof.
  induction keys as [|k keys IH]; intros seen key Hin.
  - apply elem_of_nil in Hin. contradiction.
  - simpl. apply elem_of_cons in Hin as [->|Hin].
    + destruct (decide (k ∈ seen)) as [Hk|Hk].
      * apply elem_of_app. left. exact Hk.
      * apply elem_of_app. right. apply elem_of_cons. left. reflexivity.
    + destruct (decide (k ∈ seen)) as [Hk|Hk]; [apply IH, Hin|].
      specialize (IH (seen ++ [k]) key Hin).
      rewrite <- app_assoc in IH. exact IH.
Qed.

Lemma first_seen_sound (keys : list (list string)) :
  forall seen key,
    key ∈ first_seen seen keys -> key ∈ keys /\ key ∉ seen.
Proof.
  induction keys as [|k keys IH]; intros seen key Hin.
  - apply elem_of_nil in Hin. contradiction.
  - simpl in Hin. destruct (decide (k ∈ seen)) as [Hk|Hk].
    + destruct (IH _ _ Hin) as [H1 H2]. split; [|exact H2].
      apply elem_of_cons. right. exact H1.
    + apply elem_of_cons in Hin as [->|Hin].
      * split; [apply elem_of_cons; left; reflexivity|exact Hk].
      * destruct (IH _ _ Hin) as [H1 H2]. split.
        -- apply elem_of_cons. right. exact H1.
        -- intros Hs. apply H2. apply elem_of_app. left. exact Hs.
Qed.

Lemma first_seen_length (keys : list (list string)) :
  forall seen, (length (first_seen seen keys) <= length keys)%nat.
Proof.
  induction keys as [|k keys IH]; intros seen; simpl; [lia|].
  destruct (decide (k ∈ seen)); simpl.
  - specialize (IH seen). lia.
  - specialize (IH (seen ++ [k])). lia.
Qed.

Lemma groups_elem_of (Opts : list OptionRecord) (key : list string) :
  key ∈ groups Opts <-> key = [] \/ exists R, R ∈ Opts /\ Prefixes R = key.
Proof.
  unfold groups. split.
  - intros Hin. apply elem_of_cons in Hin as [->|Hin]; [left; reflexivity|].
    right. apply first_seen_sound in Hin as [Hin _].
    apply list_elem_of_fmap in Hin as (R & -> & HR). eauto.
  - intros [->|(R & HR & <-)]; [apply elem_of_cons; left; reflexivity|].
    apply (first_seen_covers (map Prefixes Opts) [[]]).
    apply list_elem_of_fmap. eauto.
Qed.

(** X10.  The names of the prefix groups.  For a table of fewer than [2^32]
    options, the map built by lines 119-130 holds exactly the distinct lists
    of prefixes of the options and the empty list; the empty list is named
    [prefix_0] and the others [prefix_1], [prefix_2], ... in the order in
    which the loop first meets them. *)
Theorem prefix_groups_numbered (Opts : list OptionRecord) :
  (N.of_nat (length Opts) < 2 ^ 32)%N ->
  NoDup (groups Opts) /\
  (forall key, key ∈ groups Opts <->
               key = [] \/ exists R, R ∈ Opts /\ Prefixes R = key) /\
  (forall (i : nat) key,
      groups Opts !! i = Some key ->
      (EmitOptParser_prefixes Opts).1 !! key
      = Some (prefix_name (N.of_nat i))) /\
  (forall key, key ∉ groups Opts ->
               (EmitOptParser_prefixes Opts).1 !! key = None).
Proof.
  intros Hlen. pose proof (EmitOptParser_prefixes_assigned Opts Hlen) as Inv.
  split; [apply (assigned_nodup _ _ _ Inv)|].
  split; [apply groups_elem_of|].
  split; [apply (assigned_name _ _ _ Inv)|apply (assigned_only _ _ _ Inv)].
Qed.

Lemma prefix_groups_numbered_witness :
  (EmitOptParser_prefixes
     [Tables.optA; Tables.optX; Tables.optY; Tables.optB]).1
    !! ["-"; "+"]%string
  = Some "prefix_3"%string.
Proof.
  assert (Hlen : (N.of_nat (length [Tables.optA; Tables.optX; Tables.optY;
                                    Tables.optB]) < 2 ^ 32)%N)
    by reflexivity.
  destruct (prefix_groups_numbered _ Hlen) as (_ & _ & Hname & _).
  apply (Hname 3%nat). reflexivity.
Defined.

(** X11.  Every option finds its prefix group.  For a table of fewer than
    [2^32] options, the subscript of line 215 on the prefixes of any option
    of the table returns one of the names [prefix_i] with [i] at most
    [CurPrefix], and leaves the map as it is: no entry with an empty name is
    ever added. *)
Theorem option_prefix_found (Opts : list OptionRecord) (R : OptionRecord) :
  (N.of_nat (length Opts) < 2 ^ 32)%N ->
  R ∈ Opts ->
  exists i : N,
    (i <= (EmitOptParser_prefixes Opts).2)%N /\
    map_subscript (EmitOptParser_prefixes Opts).1 (Prefixes R)
    = (prefix_name i, (EmitOptParser_prefixes Opts).1).
Proof.
  intros Hlen HR. pose proof (EmitOptParser_prefixes_assigned Opts Hlen) as Inv.
  assert (Hin : Prefixes R ∈ groups Opts)
    by (apply groups_elem_of; right; eauto).
  apply list_elem_of_lookup in Hin as [i Hi].
  exists (N.of_nat i). split.
  - pose proof (assigned_cur _ _ _ Inv) as Hcur.
    apply lookup_lt_Some in Hi. lia.
  - unfold map_subscript. rewrite (assigned_name _ _ _ Inv i _ Hi). reflexivity.
Qed.

Lemma option_prefix_found_witness :
  exists i : N,
    (i <= (EmitOptParser_prefixes [Tables.optA; Tables.optX]).2)%N /\
    map_subscript (EmitOptParser_prefixes [Tables.optA; Tables.optX]).1
                  (Prefixes Tables.optX)
    = (prefix_name i, (EmitOptParser_prefixes [Tables.optA; Tables.optX]).1).
Proof.
  apply option_prefix_found.
  - reflexivity.
  - apply elem_of_cons. right. apply elem_of_cons. left. reflexivity.
Defined.

(** X12.  Distinct lists of prefixes get distinct names: for a table of
    fewer than [2^32] options, two keys of the map with the same name are the
    same list. *)
Theorem prefix_names_distinct (Opts : list OptionRecord)
    (key1 key2 : list string) (name : string) :
  (N.of_nat (length Opts) < 2 ^ 32)%N ->
  (EmitOptParser_prefixes Opts).1 !! key1 = Some name ->
  (EmitOptParser_prefixes Opts).1 !! key2 = Some name ->
  key1 = key2.
Proof.
  intros Hlen H1 H2. pose proof (EmitOptParser_prefixes_assigned Opts Hlen) as Inv.
  assert (Hin : forall key, (EmitOptParser_prefixes Opts).1 !! key = Some name ->
                exists i : nat, groups Opts !! i = Some key /\
                                name = prefix_name (N.of_nat i)).
  { intros key Hkey.
    destruct (decide (key ∈ groups Opts)) as [Hk|Hk].
    - apply list_elem_of_lookup in Hk as [i Hi]. exists i. split; [exact Hi|].
      rewrite (assigned_name _ _ _ Inv i key Hi) in Hkey. congruence.
    - rewrite (assigned_only _ _ _ Inv key Hk) in Hkey. discriminate. }
  destruct (Hin _ H1) as (i1 & Hi1 & E1), (Hin _ H2) as (i2 & Hi2 & E2).
  assert (i1 = i2) by (apply Nat2N.inj, prefix_name_inj; congruence).
  congruence.
Qed.

Lemma prefix_names_distinct_witness :
  (EmitOptParser_prefixes [Tables.optA; Tables.optB]).1 !! Prefixes Tables.optA
  = Some "prefix_1"%string /\
  Prefixes Tables.optA = Prefixes Tables.optB.
Proof.
  assert (H : (EmitOptParser_prefixes [Tables.optA; Tables.optB]).1
              !! Prefixes Tables.optA = Some "prefix_1"%string) by reflexivity.
  split; [exact H|].
  apply (prefix_names_distinct [Tables.optA; Tables.optB] _ _ "prefix_1");
    [reflexivity|exact H|reflexivity].
Defined.

Lemma prefix_groups_count_sizes (Opts : list OptionRecord) :
  (N.of_nat (length Opts) < 2 ^ 32)%N ->
  N.of_nat (size (EmitOptParser_prefixes Opts).1)
  = ((EmitOptParser_prefixes Opts).2 + 1)%N /\
  size (EmitOptParser_prefixes Opts).1 = length (groups Opts).
Proof.
  intros Hlen. pose proof (EmitOptParser_prefixes_assigned Opts Hlen) as Inv.
  pose proof (assigned_cur _ _ _ Inv) as Hcur.
  pose proof (assigned_size _ _ _ Inv) as Hsize.
  split; [lia|exact Hsize].
Qed.

(** X13.  The count of prefix groups.  For a table of fewer than [2^32]
    options, [CurPrefix] ends as the number of distinct non-empty lists of
    prefixes, the map holds one entry more, and [CurPrefix] is at most the
    number of options. *)
Theorem prefix_groups_count (Opts : list OptionRecord) :
  (N.of_nat (length Opts) < 2 ^ 32)%N ->
  (EmitOptParser_prefixes Opts).2
  = N.of_nat (length (first_seen [[]] (map Prefixes Opts))) /\
  N.of_nat (size (EmitOptParser_prefixes Opts).1)
  = ((EmitOptParser_prefixes Opts).2 + 1)%N /\
  ((EmitOptParser_prefixes Opts).2 <= N.of_nat (length Opts))%N.
Proof.
  intros Hlen. pose proof (EmitOptParser_prefixes_assigned Opts Hlen) as Inv.
  pose proof (assigned_cur _ _ _ Inv) as Hcur.
  pose proof (assigned_size _ _ _ Inv) as Hsize.
  pose proof (first_seen_length (map Prefixes Opts) [[]]) as Hle.
  rewrite length_map in Hle. unfold groups in Hcur, Hsize. simpl length in *.
  split; [lia|]. split; lia.
Qed.

Lemma prefix_groups_count_witness :
  (EmitOptParser_prefixes
     [Tables.optA; Tables.optX; Tables.optY; Tables.optB]).2 = 3%N.
Proof.
  destruct (prefix_groups_count
              [Tables.optA; Tables.optX; Tables.optY; Tables.optB])
    as (H & _ & _); [reflexivity|].
  rewrite H. reflexivity.
Defined.

Lemma EmitOptParser_prefixes_dom (Opts : list OptionRecord) (key : list string) :
  (N.of_nat (length Opts) < 2 ^ 32)%N ->
  key ∈ dom (EmitOptParser_prefixes Opts).1 <->
  key = [] \/ exists R, R ∈ Opts /\ Prefixes R = key.
Proof.
  intros Hlen. pose proof (EmitOptParser_prefixes_assigned Opts Hlen) as Inv.
  rewrite <- groups_elem_of, elem_of_dom.
  destruct (assigned_names_lookup _ _ _ key Inv) as [Hin Hout].
  split; [|exact Hin].
  intros Hsome. destruct (decide (key ∈ groups Opts)) as [|Hk]; [assumption|].
  rewrite (Hout Hk) in Hsome. destruct Hsome as [? ?]. discriminate.
Qed.

(** X18.  The prefix groups do not depend on the order of the options.  Two
    tables of fewer than [2^32] options that are permutations of each other
    give maps with the same keys and the same final [CurPrefix]; only the
    numbers in the names follow the order. *)
Theorem prefix_groups_order_independent (Opts Opts' : list OptionRecord) :
  Opts ≡ₚ Opts' ->
  (N.of_nat (length Opts) < 2 ^ 32)%N ->
  dom (EmitOptParser_prefixes Opts).1 = dom (EmitOptParser_prefixes Opts').1 /\
  (EmitOptParser_prefixes Opts).2 = (EmitOptParser_prefixes Opts').2.
Proof.
  intros Hperm Hlen.
  assert (Hlen' : (N.of_nat (length Opts') < 2 ^ 32)%N)
    by (rewrite <- (Permutation_length Hperm); exact Hlen).
  assert (Hdom : dom (EmitOptParser_prefixes Opts).1
                 = dom (EmitOptParser_prefixes Opts').1).
  { apply set_eq. intros key.
    rewrite !EmitOptParser_prefixes_dom by assumption.
    split; (intros [->|(R & HR & <-)]; [left; reflexivity|right]);
      exists R; (split; [|reflexivity]).
    - rewrite <- Hperm. exact HR.
    - rewrite Hperm. exact HR. }
  split; [exact Hdom|].
  destruct (prefix_groups_count_sizes Opts Hlen) as [H1 _].
  destruct (prefix_groups_count_sizes Opts' Hlen') as [H2 _].
  rewrite <- !size_dom, Hdom in *. lia.
Qed.

Lemma prefix_groups_order_independent_witness :
  dom (EmitOptParser_prefixes [Tables.optA; Tables.optX]).1
  = dom (EmitOptParser_prefixes [Tables.optX; Tables.optA]).1 /\
  (EmitOptParser_prefixes [Tables.optA; Tables.optX]).2
  = (EmitOptParser_prefixes [Tables.optX; Tables.optA]).2.
Proof.
  apply prefix_groups_order_independent.
  - apply perm_swap.
  - reflexivity.
Defined.

End PrefixGroupsFacts.

Module LexMore.

Import Lex LexFacts.

Lemma isIndexHeaderMap_of_map map DT idx :
  isIndexHeaderMap (DirectoryLookup_of_map map DT idx) = idx.
Proof. destruct idx; reflexivity. Qed.

Lemma bitfield_idemp (w v : Z) : bitfield w (bitfield w v) = bitfield w v.
Proof.
  unfold bitfield. destruct (Z.eq_dec (2 ^ w) 0) as [E|E].
  - rewrite E, !Z.mod_0_r. reflexivity.
  - apply Z.mod_mod, E.
Qed.

(** X14.  An entry is rebuilt from what its accessors return.  Passing
    [getDir] and [getDirCharacteristic] of an entry built from a directory
    back to the directory constructor gives the same entry, whatever the
    [isFramework] argument; passing [getHeaderMap], [getDirCharacteristic] and
    [isIndexHeaderMap] of an entry built from a header map back to the
    header-map constructor gives the same entry. *)
Theorem DirectoryLookup_rebuild :
  (forall dir DT fw fw',
      let d := DirectoryLookup_of_dir dir DT fw in
      DirectoryLookup_of_dir (getDir d) (getDirCharacteristic d) fw' = d) /\
  (forall map DT idx,
      let d := DirectoryLookup_of_map map DT idx in
      DirectoryLookup_of_map (getHeaderMap d) (getDirCharacteristic d)
                             (isIndexHeaderMap d) = d).
Proof.
  split.
  - intros dir DT fw fw' d. subst d.
    unfold DirectoryLookup_of_dir at 1. unfold getDirCharacteristic.
    cbn [DirCharacteristic DirectoryLookup_of_dir].
    rewrite bitfield_idemp. reflexivity.
  - intros map DT idx d. subst d.
    unfold DirectoryLookup_of_map at 1. unfold getDirCharacteristic.
    cbn [DirCharacteristic DirectoryLookup_of_map].
    rewrite bitfield_idemp.
    rewrite isIndexHeaderMap_of_map.
    reflexivity.
Qed.

Lemma bitfield_2 (v : Z) : bitfield 2 v = v mod 4.
Proof. reflexivity. Qed.

(** X16.  The two pointer accessors never both answer.  On every object at
    least one of [getDir] and [getHeaderMap] is null; a [getDir] that is not
    null means a normal directory and a [getHeaderMap] that is not null means
    a header map.  The converse needs the stored pointer not to be null: an
    entry built from a null directory is a normal directory whose [getDir] is
    null. *)
Theorem getDir_getHeaderMap_exclusive :
  (forall d : DirectoryLookup,
      (getDir d = nullptr \/ getHeaderMap d = nullptr) /\
      (getDir d <> nullptr -> isNormalDir d = true /\ isHeaderMap d = false) /\
      (getHeaderMap d <> nullptr ->
       isHeaderMap d = true /\ isNormalDir d = false)) /\
  (forall dir DT fw,
      dir <> nullptr ->
      getDir (DirectoryLookup_of_dir dir DT fw) <> nullptr) /\
  (forall map DT idx,
      map <> nullptr ->
      getHeaderMap (DirectoryLookup_of_map map DT idx) <> nullptr) /\
  (forall DT fw,
      isNormalDir (DirectoryLookup_of_dir nullptr DT fw) = true /\
      getDir (DirectoryLookup_of_dir nullptr DT fw) = nullptr).
Proof.
  split; [|split; [|split]].
  - intros d. unfold getDir, getHeaderMap, isNormalDir, isHeaderMap,
      getLookupType, LT_NormalDir, LT_HeaderMap.
    destruct (Z.eqb_spec (LookupType d) 0) as [E0|E0],
             (Z.eqb_spec (LookupType d) 1) as [E1|E1];
      try (exfalso; lia); repeat split; auto; intros; congruence.
  - intros dir DT fw Hdir. exact Hdir.
  - intros map DT idx Hmap. exact Hmap.
  - intros DT fw. split; reflexivity.
Qed.

(** X17.  What the constructors keep apart.  Two entries built from
    directories are the same entry exactly when the directories are the same
    and the characteristics agree modulo 4; two entries built from header
    maps are the same exactly when the maps and the index flags are the same
    and the characteristics agree modulo 4; an entry built from a directory
    is never an entry built from a header map, even from the same pointer. *)
Theorem constructors_injective :
  (forall dir dir' DT DT' fw fw',
      DirectoryLookup_of_dir dir DT fw = DirectoryLookup_of_dir dir' DT' fw'
      <-> dir = dir' /\ DT mod 4 = DT' mod 4) /\
  (forall map map' DT DT' idx idx',
      DirectoryLookup_of_map map DT idx = DirectoryLookup_of_map map' DT' idx'
      <-> map = map' /\ DT mod 4 = DT' mod 4 /\ idx = idx') /\
  (forall dir map DT DT' fw idx,
      DirectoryLookup_of_dir dir DT fw <> DirectoryLookup_of_map map DT' idx).
Proof.
  split; [|split].
  - intros dir dir' DT DT' fw fw'. unfold DirectoryLookup_of_dir.
    rewrite !bitfield_2. split.
    + intros [= -> H]. auto.
    + intros [-> ->]. reflexivity.
  - intros map map' DT DT' idx idx'. unfold DirectoryLookup_of_map.
    rewrite !bitfield_2, !bitfield_b2z. split.
    + intros [= -> H Hidx]. split; [reflexivity|]. split; [exact H|].
      destruct idx, idx'; simpl in Hidx; congruence.
    + intros (-> & -> & ->). reflexivity.
  - intros dir map DT DT' fw idx. unfold DirectoryLookup_of_dir,
      DirectoryLookup_of_map. intros H. apply (f_equal LookupType) in H.
    vm_compute in H. discriminate.
Qed.

End LexMore.
